(** * go-dot: a builder and printer of graphviz dot-files

    A shallow embedding of [graph.go] (package [dot]) and the properties of
    its serialisation.

    Go strings are byte sequences: they are modelled by [string] (a list of
    8-bit [ascii]).  Every element of a graph body is a pointer in the
    source ([*Literal], [*VertexDescription], [*EdgeDescription], [*Graph]
    stored in an [Element] interface value), so the objects live in a heap
    and a body holds addresses.  The output stream is the [io.Writer]
    interface, here a type class.  A graph can be put into its own body, and
    [Graph.Write] then recurses for ever: the model of [Graph.Write] takes a
    bound on the depth of its recursion. *)

From Stdlib Require Import ZArith Lia Ascii.
From stdpp Require Import base list strings pretty.

Local Open Scope Z_scope.

(** ** Text *)

(** The two characters of the source's format strings that a string literal
    cannot hold here: the line feed (byte 10) and the double quote (byte 34). *)
Definition LF : string := String (Ascii.ascii_of_nat 10) EmptyString.
Definition DQ : string := String (Ascii.ascii_of_nat 34) EmptyString.

(** [strings.ToLower] on ASCII text (the names of the struct fields, the
    only strings it is applied to, are ASCII): the bytes ['A'..'Z'] are
    moved to ['a'..'z'] and every other byte is kept. *)
Definition lower_byte (c : Ascii.ascii) : Ascii.ascii :=
  let n := Ascii.nat_of_ascii c in
  if (Nat.leb 65 n && Nat.leb n 90)%bool then Ascii.ascii_of_nat (n + 32) else c.

Fixpoint ToLower (s : string) : string :=
  match s with
  | EmptyString => EmptyString
  | String c s' => String (lower_byte c) (ToLower s')
  end.

(** The verb [%d] of [fmt.Sprintf] on an integer: its decimal digits, with a
    leading minus sign when it is negative. *)
Definition fmt_d (n : Z) : string := pretty n.

(** The test that a string is not the empty string. *)
Definition nonempty (s : string) : bool := negb (String.eqb s "").

(** The test [value[0] == '<'] on the first byte of a string. *)
Definition starts_with_lt (s : string) : bool :=
  match s with
  | String c _ => Ascii.eqb c "<"%char
  | EmptyString => false
  end.

(** ** Errors and output streams *)

(** A Go [error] value (as made by [errors.New]); [nil] is [None]. *)
Inductive error : Type := errorString (msg : string).

(** [err != nil] *)
Definition notnil (err : option error) : bool :=
  match err with Some _ => true | None => false end.

(** The interface [io.Writer].  A writer is a state; a call of its [Write]
    method with some bytes gives the writer's next state and the error it
    returns.  The byte count that [Write] also returns is left out: the
    source drops it at every call ([_, err := ...]). *)
Class Writer (W : Type) := Write : W -> string -> W * option error.

(** [io.WriteString(w, s)]: one call of the writer's [Write]. *)
Definition io_WriteString {W} `{Writer W} (w : W) (s : string) : W * option error :=
  Write w s.

(** A writer that never fails and keeps all it is given, such as
    [bytes.Buffer]: its state is the text written so far. *)
Definition Buffer : Type := string.

#[export] Instance Buffer_Writer : Writer Buffer :=
  fun buf s => (buf +:+ s, None).

(** A writer that follows a script, one reply per call: it takes the whole
    request, or it takes the first [n] bytes of the request and fails with
    an error.  With the script used up it takes everything. *)
Inductive reply : Type :=
| Accept
| Fail (n : nat) (e : error).

Record Scripted : Type := mkScripted {
  written : string;
  script : list reply
}.

Fixpoint take_bytes (n : nat) (s : string) : string :=
  match n, s with
  | S n', String c s' => String c (take_bytes n' s')
  | _, _ => EmptyString
  end.

#[export] Instance Scripted_Writer : Writer Scripted :=
  fun w s =>
    match script w with
    | [] => (mkScripted (written w +:+ s) [], None)
    | Accept :: rest => (mkScripted (written w +:+ s) rest, None)
    | Fail n e :: rest => (mkScripted (written w +:+ take_bytes n s) rest, Some e)
    end.

(** ** Literal *)

Record Literal : Type := mkLiteral { Line : string }.

Definition Literal_Write {W} `{Writer W} (lit : Literal) (w : W) : W * option error :=
  io_WriteString w (Line lit).

(** ** VertexDescription *)

Record VertexDescription : Type := mkVertexDescription {
  ID : string;
  (* string attributes *)
  Label : string;
  Group : string;
  Color : string;
  Style : string;
  ColorScheme : string;
  FontColor : string;
  FontName : string;
  Shape : string;
  (* int attributes: an [int] of Go is a 64-bit integer; it is only
     compared with zero and printed, so it is kept as an integer *)
  Peripheries : Z
}.

Definition NewVertexDescription (id : string) : VertexDescription :=
  {| ID := id; Label := ""; Group := ""; Color := ""; Style := "";
     ColorScheme := ""; FontColor := ""; FontName := ""; Shape := "";
     Peripheries := 0 |}.

(** What [reflect.ValueOf] shows of a vertex value: its fields in the order of
    their declaration, each with its declared name and its value, whose kind
    is [reflect.String] or [reflect.Int]. *)
Inductive Value : Type :=
| StringValue (s : string)
| IntValue (n : Z).

Definition Fields (v : VertexDescription) : list (string * Value) :=
  [ ("ID", StringValue (ID v));
    ("Label", StringValue (Label v));
    ("Group", StringValue (Group v));
    ("Color", StringValue (Color v));
    ("Style", StringValue (Style v));
    ("ColorScheme", StringValue (ColorScheme v));
    ("FontColor", StringValue (FontColor v));
    ("FontName", StringValue (FontName v));
    ("Shape", StringValue (Shape v));
    ("Peripheries", IntValue (Peripheries v)) ].

(** The body of the loop over the fields: what one field adds to [nodeStr]. *)
Definition field_step (nodeStr : string) (f : string * Value) : string :=
  let name := ToLower (fst f) in
  match snd f with
  | StringValue value =>
      if nonempty value then
        if starts_with_lt value
        then nodeStr +:+ (name +:+ "=" +:+ value +:+ " ")
        else nodeStr +:+ (name +:+ "=" +:+ DQ +:+ value +:+ DQ +:+ " ")
      else nodeStr
  | IntValue value =>
      if negb (value =? 0)
      then nodeStr +:+ (name +:+ "=" +:+ DQ +:+ fmt_d value +:+ DQ +:+ " ")
      else nodeStr
  end.

(** The text a vertex is written as.  The loop starts at field 1, after the
    identifier. *)
Definition nodeStr (v : VertexDescription) : string :=
  let nodeStr := ID v +:+ " " in
  let nodeStr := nodeStr +:+ "[" in
  let nodeStr := foldl field_step nodeStr (drop 1 (Fields v)) in
  nodeStr +:+ "]".

Definition VertexDescription_Write {W} `{Writer W}
    (v : VertexDescription) (w : W) : W * option error :=
  io_WriteString w (nodeStr v).

(** ** EdgeDescription *)

(** The field [Style] of the source is [EdgeStyle] here: the projections of
    all records share one name space. *)
Record EdgeDescription : Type := mkEdgeDescription {
  From : VertexDescription;
  To : VertexDescription;
  Directed : bool;
  EdgeStyle : string
}.

Definition edgeStr (e : EdgeDescription) : string :=
  let arrow := if Directed e then "->" else "--" in
  let edgeStr := ID (From e) +:+ " " +:+ arrow +:+ " " +:+ ID (To e) in
  if nonempty (EdgeStyle e)
  then edgeStr +:+ (" [ style=" +:+ DQ +:+ EdgeStyle e +:+ DQ +:+ " ]")
  else edgeStr.

Definition EdgeDescription_Write {W} `{Writer W}
    (e : EdgeDescription) (w : W) : W * option error :=
  io_WriteString w (edgeStr e).

(** ** The heap of objects *)

(** A pointer: the index of an object in the heap. *)
Definition addr : Type := nat.

(** A value of the interface [Element]: the dynamic type of the pointer it
    holds, and the pointer.  These four types are the ones of the package
    with a [Write] method. *)
Inductive Element : Type :=
| ptr_Literal (p : addr)
| ptr_VertexDescription (p : addr)
| ptr_EdgeDescription (p : addr)
| ptr_Graph (p : addr).

Record Graph : Type := mkGraph {
  Name : string;
  Body : list Element;
  IsSubGraph : bool;
  (* string attributes *)
  Rank : string
}.

Definition NewGraph (name : string) : Graph :=
  {| Name := name; Body := []; IsSubGraph := false; Rank := "" |}.

Inductive Obj : Type :=
| OLiteral (lit : Literal)
| OVertexDescription (v : VertexDescription)
| OEdgeDescription (e : EdgeDescription)
| OGraph (g : Graph).

(** The state a call runs in: the heap, and the writer it was handed.  The
    writer has a state of its own and no access to the heap. *)
Record Machine (W : Type) : Type := mkMachine {
  heap : list Obj;
  stream : W
}.
Arguments mkMachine {W} _ _.
Arguments heap {W} _.
Arguments stream {W} _.

(** How a call ends: it returns a value in a new state; it panics (the
    dereference of a pointer to nothing, or to an object of another type),
    in the state that was reached when it did; or the recursion budget of
    the model is used up before it returns. *)
Inductive outcome (S A : Type) : Type :=
| Ok (a : A) (s : S)
| Panic (s : S)
| OutOfFuel.
Arguments Ok {S A} _ _.
Arguments Panic {S A} _.
Arguments OutOfFuel {S A}.

Definition M (W A : Type) : Type := Machine W -> outcome (Machine W) A.

Definition ret {W A} (a : A) : M W A := fun m => Ok a m.

Definition bind {W A B} (c : M W A) (k : A -> M W B) : M W B :=
  fun m =>
    match c m with
    | Ok a m' => k a m'
    | Panic m' => Panic m'
    | OutOfFuel => OutOfFuel
    end.

Declare Scope go_scope.
Delimit Scope go_scope with go.
Notation "x <- c ;; k" := (bind c (fun x => k))
  (at level 100, c at next level, right associativity) : go_scope.
Local Open Scope go_scope.

Section Run.
Context {W : Type} `{Writer W}.

Definition panic {A} : M W A := fun m => Panic m.
Definition out_of_fuel {A} : M W A := fun _ => OutOfFuel.

(** Reading through a pointer. *)
Definition load (p : addr) : M W Obj :=
  fun m => match heap m !! p with Some o => Ok o m | None => Panic m end.

Definition load_Literal (p : addr) : M W Literal :=
  o <- load p ;; match o with OLiteral lit => ret lit | _ => panic end.

Definition load_VertexDescription (p : addr) : M W VertexDescription :=
  o <- load p ;; match o with OVertexDescription v => ret v | _ => panic end.

Definition load_EdgeDescription (p : addr) : M W EdgeDescription :=
  o <- load p ;; match o with OEdgeDescription e => ret e | _ => panic end.

Definition load_Graph (p : addr) : M W Graph :=
  o <- load p ;; match o with OGraph g => ret g | _ => panic end.

(** Writing through a pointer. *)
Definition store (p : addr) (o : Obj) : M W unit :=
  fun m =>
    if decide (p < length (heap m))%nat
    then Ok tt (mkMachine (<[p := o]> (heap m)) (stream m))
    else Panic m.

(** A new object ([&T{...}]), at an address not in use. *)
Definition alloc (o : Obj) : M W addr :=
  fun m => Ok (length (heap m)) (mkMachine (heap m ++ [o]) (stream m)).

(** A call that works on the writer alone. *)
Definition on_stream (f : W -> W * option error) : M W (option error) :=
  fun m => let (w, err) := f (stream m) in Ok err (mkMachine (heap m) w).

(** [graph.Body = append(graph.Body, line)], as the graph itself sees it:
    its body is the body it had with [line] after it.  The heap keeps the
    elements a graph sees and no backing arrays: what the call does to
    another [Graph] value that was copied from this one and shares its
    array is not in the model, and the properties of the package state
    nothing of what other graphs hold after a call. *)
Definition append_Body (graph : addr) (line : Element) : M W unit :=
  g <- load_Graph graph ;;
  store graph (OGraph {| Name := Name g; Body := Body g ++ [line];
                         IsSubGraph := IsSubGraph g; Rank := Rank g |}).

Definition Graph_AddComment (graph : addr) (text : string) : M W unit :=
  let commentStr := "/* " +:+ text +:+ " */" in
  line <- alloc (OLiteral {| Line := commentStr |}) ;;
  append_Body graph (ptr_Literal line).

Definition Graph_AddNewLine (graph : addr) : M W unit :=
  line <- alloc (OLiteral {| Line := "" |}) ;;
  append_Body graph (ptr_Literal line).

Definition Graph_AddVertex (graph : addr) (v : addr) : M W unit :=
  append_Body graph (ptr_VertexDescription v).

Definition Graph_AddEdge (graph : addr) (v1 v2 : addr)
    (directed : bool) (style : string) : M W unit :=
  from <- load_VertexDescription v1 ;;
  to <- load_VertexDescription v2 ;;
  edge <- alloc (OEdgeDescription
                   {| From := from; To := to;
                      Directed := directed; EdgeStyle := style |}) ;;
  append_Body graph (ptr_EdgeDescription edge).

Definition Graph_AddSubGraph (graph : addr) (sGraph : addr) : M W unit :=
  append_Body graph (ptr_Graph sGraph).

(** [line.Write(w)]: the call goes to the method of the element's dynamic
    type.  [Graph_Write] is the method of [*Graph]. *)
Definition Element_Write (Graph_Write : addr -> M W (option error))
    (line : Element) : M W (option error) :=
  match line with
  | ptr_Literal p =>
      lit <- load_Literal p ;; on_stream (Literal_Write lit)
  | ptr_VertexDescription p =>
      v <- load_VertexDescription p ;; on_stream (VertexDescription_Write v)
  | ptr_EdgeDescription p =>
      e <- load_EdgeDescription p ;; on_stream (EdgeDescription_Write e)
  | ptr_Graph p => Graph_Write p
  end.

(** The loop [for _, line := range graph.Body] of [Graph.Write].  [Some err]
    is a [return err] from inside the loop, [None] the end of the body. *)
Fixpoint range_Body (line_Write : Element -> M W (option error))
    (body : list Element) : M W (option (option error)) :=
  match body with
  | [] => ret None
  | line :: rest =>
      err <- line_Write line ;;
      err2 <- on_stream (fun w => io_WriteString w LF) ;;
      if (notnil err || notnil err2)%bool
      then ret (Some err)
      else range_Body line_Write rest
  end.

(** [Graph.Write].  A graph may hold itself, directly or through others,
    and the source then never returns; [fuel] bounds the depth of the
    nested calls. *)
Fixpoint Graph_Write (fuel : nat) (graph : addr) : M W (option error) :=
  match fuel with
  | O => out_of_fuel
  | S fuel' =>
      g <- load_Graph graph ;;
      let title :=
        if IsSubGraph g
        then "subgraph " +:+ Name g +:+ " {" +:+ LF
        else "digraph " +:+ Name g +:+ " {" +:+ LF in
      let body_and_close :=
        r <- range_Body (Element_Write (Graph_Write fuel')) (Body g) ;;
        match r with
        | Some err => ret err
        | None => on_stream (fun w => io_WriteString w "}")
        end in
      err <- on_stream (fun w => io_WriteString w title) ;;
      if notnil err then ret err else
      if nonempty (Rank g) then
        err <- on_stream (fun w =>
                 io_WriteString w ("rank" +:+ "=" +:+ DQ +:+ Rank g +:+ DQ +:+ LF)) ;;
        if notnil err then ret err else body_and_close
      else body_and_close
  end.

End Run.

(** * The vocabulary of the properties *)

(** ** What a vertex is written as, attribute by attribute

    The rules of the specification, one attribute at a time. *)

(** A string attribute: nothing when unset; [name=value] when the value
    starts with [<]; the value in double quotes otherwise.  A space follows
    the attribute. *)
Definition string_attr (name value : string) : string :=
  match value with
  | EmptyString => ""
  | String c _ =>
      if decide (c = "<"%char)
      then name +:+ "=" +:+ value +:+ " "
      else name +:+ "=" +:+ DQ +:+ value +:+ DQ +:+ " "
  end.

(** The integer attribute: nothing when zero; the decimal value in double
    quotes otherwise.  A space follows the attribute. *)
Definition int_attr (name : string) (n : Z) : string :=
  if decide (n = 0) then "" else name +:+ "=" +:+ DQ +:+ fmt_d n +:+ DQ +:+ " ".

(** The string attributes of a vertex, in the order of their declaration. *)
Definition string_attrs (v : VertexDescription) : string :=
  string_attr "label" (Label v) +:+
  string_attr "group" (Group v) +:+
  string_attr "color" (Color v) +:+
  string_attr "style" (Style v) +:+
  string_attr "colorscheme" (ColorScheme v) +:+
  string_attr "fontcolor" (FontColor v) +:+
  string_attr "fontname" (FontName v) +:+
  string_attr "shape" (Shape v).

(** ** The parts of [Graph.Write] *)

(** The header line of a graph and its rank line. *)
Definition header_line (g : Graph) : string :=
  (if IsSubGraph g then "subgraph " else "digraph ") +:+ Name g +:+ " {" +:+ LF.

Definition rank_line (g : Graph) : string :=
  "rank=" +:+ DQ +:+ Rank g +:+ DQ +:+ LF.

Section Parts.
Context {W : Type} `{Writer W}.

(** What [Graph.Write] does before its loop: it writes the header line,
    and then the rank line when the graph has a rank. *)
Definition prelude (g : Graph) : M W (option error) :=
  err <- on_stream (fun w => io_WriteString w (header_line g)) ;;
  if notnil err then ret err
  else if nonempty (Rank g)
       then on_stream (fun w => io_WriteString w (rank_line g))
       else ret None.

(** What it does from the loop on. *)
Definition body_and_close (fuel : nat) (g : Graph) : M W (option error) :=
  r <- range_Body (Element_Write (Graph_Write fuel)) (Body g) ;;
  match r with
  | Some err => ret err
  | None => on_stream (fun w => io_WriteString w "}")
  end.

(** A call that, when it returns, has changed no object. *)
Definition keeps_heap {A} (c : M W A) : Prop :=
  forall m a m', c m = Ok a m' -> heap m' = heap m.

(** Whenever [c] returns, [c'] returns the same value in the same state. *)
Definition refines {A} (c c' : M W A) : Prop :=
  forall m a m', c m = Ok a m' -> c' m = Ok a m'.

End Parts.

(** ** Writers that never fail *)

(** On a [Buffer], [c] returns [a] after it has written [out], whatever the
    buffer held before, and leaves the heap [h] as it was. *)
Definition renders {A} (c : M Buffer A) (h : list Obj) (a : A) (out : string) : Prop :=
  forall buf : Buffer, c (mkMachine h buf) = Ok a (mkMachine h (buf +:+ out)).

(** On a [Buffer], a call that returns from one buffer returns the same
    value from every buffer, after the same output. *)
Definition uniform {A} (c : M Buffer A) : Prop :=
  forall h buf a m', c (mkMachine h buf) = Ok a m' -> exists out, renders c h a out.

(** ** Assignments to vertices *)

(** Assignments through pointers to vertices, one after the other: each
    gives the vertex at an address a new value (any change of its fields). *)
Definition assign_vertices (muts : list (addr * VertexDescription))
    (h : list Obj) : list Obj :=
  foldl (fun h pd => <[fst pd := OVertexDescription (snd pd)]> h) h muts.

(** ** Scenes *)

(** The heap of a graph [G] with the one line [partial] in its body, and the
    errors of two failing writes. *)
Definition one_line_heap : list Obj :=
  [ OGraph {| Name := "G"; Body := [ptr_Literal 1%nat]; IsSubGraph := false;
              Rank := "" |};
    OLiteral {| Line := "partial" |} ].

Definition err_element : error := errorString "element".
Definition err_line_feed : error := errorString "line feed".

(** The heap of a graph [G] of rank [same] that holds a subgraph [S], which
    holds a vertex [a] with no attribute set. *)
Definition nested_heap : list Obj :=
  [ OGraph {| Name := "G"; Body := [ptr_Graph 1%nat]; IsSubGraph := false;
              Rank := "same" |};
    OGraph {| Name := "S"; Body := [ptr_VertexDescription 2%nat];
              IsSubGraph := true; Rank := "" |};
    OVertexDescription (NewVertexDescription "a") ].

(** A graph [G] and two vertices [a] and [b], and the heap after the edge
    from [a] to [b] is added to the graph. *)
Definition two_vertices_heap : list Obj :=
  [ OGraph (NewGraph "G");
    OVertexDescription (NewVertexDescription "a");
    OVertexDescription (NewVertexDescription "b") ].

Definition edge_a_b : EdgeDescription :=
  {| From := NewVertexDescription "a"; To := NewVertexDescription "b";
     Directed := true; EdgeStyle := "" |}.

Definition with_edge_heap : list Obj :=
  [ OGraph {| Name := "G"; Body := [ptr_EdgeDescription 3%nat];
              IsSubGraph := false; Rank := "" |};
    OVertexDescription (NewVertexDescription "a");
    OVertexDescription (NewVertexDescription "b");
    OEdgeDescription edge_a_b ].

(** ** The text of a graph

    What [Graph.Write] hands to a writer that takes every request, read
    off the heap. *)

(** The text of one element of a body: the line of a literal, the text of
    a vertex or of an edge; [GT] gives the text of a graph.  There is none
    when the pointer leads to nothing or to an object of another type. *)
Definition elem_text (GT : addr -> option string) (h : list Obj)
    (line : Element) : option string :=
  match line with
  | ptr_Literal p =>
      match h !! p with Some (OLiteral lit) => Some (Line lit) | _ => None end
  | ptr_VertexDescription p =>
      match h !! p with
      | Some (OVertexDescription v) => Some (nodeStr v)
      | _ => None
      end
  | ptr_EdgeDescription p =>
      match h !! p with
      | Some (OEdgeDescription e) => Some (edgeStr e)
      | _ => None
      end
  | ptr_Graph p => GT p
  end.

(** The text of a body: each element and a line feed, in the order of the
    body. *)
Fixpoint body_text (et : Element -> option string) (body : list Element)
    : option string :=
  match body with
  | [] => Some ""
  | line :: rest =>
      match et line, body_text et rest with
      | Some t, Some b => Some (t +:+ LF +:+ b)
      | _, _ => None
      end
  end.

(** The text of a graph whose nesting is less than [fuel] deep: the header
    line, the rank line if there is a rank, the body and a closing brace. *)
Fixpoint graph_text (fuel : nat) (h : list Obj) (p : addr) : option string :=
  match fuel with
  | O => None
  | S fuel' =>
      match h !! p with
      | Some (OGraph g) =>
          match body_text (elem_text (graph_text fuel' h) h) (Body g) with
          | Some b =>
              Some (header_line g +:+
                    (if nonempty (Rank g) then rank_line g else "") +:+
                    b +:+ "}")
          | None => None
          end
      | _ => None
      end
  end.

(** The pointer of an element leads to an object of the type of the
    element; [GT] tells it of the graphs. *)
Definition elem_typed (GT : addr -> bool) (h : list Obj) (line : Element)
    : bool :=
  match line with
  | ptr_Literal p =>
      match h !! p with Some (OLiteral _) => true | _ => false end
  | ptr_VertexDescription p =>
      match h !! p with Some (OVertexDescription _) => true | _ => false end
  | ptr_EdgeDescription p =>
      match h !! p with Some (OEdgeDescription _) => true | _ => false end
  | ptr_Graph p => GT p
  end.

(** [p] leads to a graph; every pointer in its body leads to an object of
    its type; the same holds of the graphs in its body, and of those in
    theirs; and the graphs are nested less than [n] deep, so that none of
    them holds itself, directly or through others. *)
Fixpoint typed_within (n : nat) (h : list Obj) (p : addr) : bool :=
  match n with
  | O => false
  | S n' =>
      match h !! p with
      | Some (OGraph g) => forallb (elem_typed (typed_within n' h) h) (Body g)
      | _ => false
      end
  end.

(** The text of a body that holds literals, vertices and edges only. *)
Definition leaf_lines (h : list Obj) (body : list Element) : option string :=
  body_text (elem_text (fun _ => None) h) body.

(** The graph [g] with one more element at the end of its body. *)
Definition with_line (g : Graph) (line : Element) : Graph :=
  {| Name := Name g; Body := Body g ++ [line];
     IsSubGraph := IsSubGraph g; Rank := Rank g |}.

(** ** Programs that build a graph

    A caller's sequence of calls that add lines to one graph. *)

Inductive call : Type :=
| call_AddComment (text : string)
| call_AddNewLine
| call_AddVertex (v : addr)
| call_AddEdge (v1 v2 : addr) (directed : bool) (style : string).

Section Calls.
Context {W : Type} `{Writer W}.

Definition run_call (graph : addr) (c : call) : M W unit :=
  match c with
  | call_AddComment text => Graph_AddComment graph text
  | call_AddNewLine => Graph_AddNewLine graph
  | call_AddVertex v => Graph_AddVertex graph v
  | call_AddEdge v1 v2 directed style =>
      Graph_AddEdge graph v1 v2 directed style
  end.

Fixpoint run_calls (graph : addr) (cs : list call) : M W unit :=
  match cs with
  | [] => ret tt
  | c :: rest => _ <- run_call graph c ;; run_calls graph rest
  end.

End Calls.

(** The line a call adds, with the vertices as they are in [h]. *)
Definition call_text (h : list Obj) (c : call) : option string :=
  match c with
  | call_AddComment text => Some ("/* " +:+ text +:+ " */")
  | call_AddNewLine => Some ""
  | call_AddVertex v =>
      match h !! v with
      | Some (OVertexDescription d) => Some (nodeStr d)
      | _ => None
      end
  | call_AddEdge v1 v2 directed style =>
      match h !! v1, h !! v2 with
      | Some (OVertexDescription d1), Some (OVertexDescription d2) =>
          Some (edgeStr {| From := d1; To := d2; Directed := directed;
                           EdgeStyle := style |})
      | _, _ => None
      end
  end.

(** The lines a sequence of calls adds, each with its line feed, in the
    order of the calls. *)
Fixpoint calls_text (h : list Obj) (cs : list call) : option string :=
  match cs with
  | [] => Some ""
  | c :: rest =>
      match call_text h c, calls_text h rest with
      | Some t, Some ts => Some (t +:+ LF +:+ ts)
      | _, _ => None
      end
  end.

(** * Properties *)

(** ** Text *)

Lemma string_app_cons (c : Ascii.ascii) (s1 s2 : string) :
  String c s1 +:+ s2 = String c (s1 +:+ s2).
Proof. reflexivity. Qed.

Lemma string_app_assoc (s1 s2 s3 : string) :
  (s1 +:+ s2) +:+ s3 = s1 +:+ (s2 +:+ s3).
Proof.
  induction s1 as [|c s1 IH]; [reflexivity|].
  rewrite !string_app_cons. now rewrite IH.
Qed.

Lemma string_app_nil_r (s : string) : s +:+ "" = s.
Proof.
  induction s as [|c s IH]; [reflexivity|].
  rewrite string_app_cons. now rewrite IH.
Qed.

Lemma nonempty_true (s : string) : s <> "" -> nonempty s = true.
Proof.
  intros Hs. unfold nonempty.
  destruct (String.eqb_spec s ""); [contradiction|reflexivity].
Qed.

Lemma nonempty_false (s : string) : s = "" -> nonempty s = false.
Proof. intros ->. reflexivity. Qed.

(** A negative number is printed as a minus sign and the digits of its
    absolute value. *)
Lemma fmt_d_neg (p : positive) : fmt_d (Z.neg p) = "-" +:+ fmt_d (Z.pos p).
Proof. reflexivity. Qed.

(** ** What a vertex is written as, attribute by attribute

    The rules of the specification, one attribute at a time. *)

Lemma field_step_string (acc name value : string) :
  field_step acc (name, StringValue value)
  = acc +:+ string_attr (ToLower name) value.
Proof.
  unfold field_step, string_attr; simpl.
  destruct value as [|c value]; simpl.
  - now rewrite string_app_nil_r.
  - destruct (Ascii.eqb_spec c "<"%char) as [->|Hc].
    + now rewrite decide_True.
    + now rewrite decide_False.
Qed.

Lemma field_step_int (acc name : string) (n : Z) :
  field_step acc (name, IntValue n) = acc +:+ int_attr (ToLower name) n.
Proof.
  unfold field_step, int_attr; simpl.
  destruct (Z.eqb_spec n 0) as [->|Hn]; simpl.
  - now rewrite string_app_nil_r.
  - now rewrite decide_False.
Qed.

(** The loop over the fields, unrolled. *)
Lemma nodeStr_unfold (v : VertexDescription) :
  nodeStr v
  = ID v +:+ " [" +:+ string_attrs v +:+
    int_attr "peripheries" (Peripheries v) +:+ "]".
Proof.
  unfold nodeStr, Fields, string_attrs; simpl.
  rewrite !field_step_string, field_step_int; simpl.
  now rewrite !string_app_assoc.
Qed.

(** C3: a vertex whose eight string attributes are empty and whose
    [Peripheries] is zero is written as its identifier, a space and an empty
    pair of brackets: this is the one request any writer receives, and a
    writer that takes it holds exactly these bytes more. *)
Theorem VertexDescription_Write_unset (v : VertexDescription) :
  Label v = "" -> Group v = "" -> Color v = "" -> Style v = "" ->
  ColorScheme v = "" -> FontColor v = "" -> FontName v = "" ->
  Shape v = "" -> Peripheries v = 0 ->
  (forall (W : Type) (HW : Writer W) (w : W),
      VertexDescription_Write v w = Write w (ID v +:+ " []")) /\
  (forall buf : Buffer,
      VertexDescription_Write v buf = (buf +:+ ID v +:+ " []", None)).
Proof.
  intros Hl Hg Hc Hs Hcs Hfc Hfn Hsh Hp.
  assert (Hstr : nodeStr v = ID v +:+ " []").
  { rewrite nodeStr_unfold. unfold string_attrs.
    now rewrite Hl, Hg, Hc, Hs, Hcs, Hfc, Hfn, Hsh, Hp. }
  unfold VertexDescription_Write, io_WriteString.
  rewrite Hstr. split; reflexivity.
Qed.

Lemma VertexDescription_Write_unset_witness :
  VertexDescription_Write (NewVertexDescription "n0") ("" : Buffer)
  = ("n0 []", None).
Proof.
  apply (proj2 (VertexDescription_Write_unset (NewVertexDescription "n0")
                  eq_refl eq_refl eq_refl eq_refl eq_refl eq_refl eq_refl
                  eq_refl eq_refl) ("" : Buffer)).
Defined.

(** C4: every string attribute of a vertex that is set is written as
    [name=value] when its value starts with [<] and as [name="value"]
    otherwise, under the lower-case form of the name of its field, each
    followed by a space; a string attribute that is empty is left out.  The
    attributes come in the order of their declaration, between the opening
    bracket and the integer attribute. *)
Theorem VertexDescription_Write_string_attrs (v : VertexDescription) :
  (forall (W : Type) (HW : Writer W) (w : W),
      VertexDescription_Write v w
      = Write w (ID v +:+ " [" +:+
                 string_attr "label" (Label v) +:+
                 string_attr "group" (Group v) +:+
                 string_attr "color" (Color v) +:+
                 string_attr "style" (Style v) +:+
                 string_attr "colorscheme" (ColorScheme v) +:+
                 string_attr "fontcolor" (FontColor v) +:+
                 string_attr "fontname" (FontName v) +:+
                 string_attr "shape" (Shape v) +:+
                 int_attr "peripheries" (Peripheries v) +:+ "]")) /\
  (forall name : string, string_attr name "" = "") /\
  (forall (name value : string),
      string_attr name (String "<"%char value)
      = name +:+ "=" +:+ String "<"%char value +:+ " ") /\
  (forall (name : string) (c : Ascii.ascii) (value : string),
      c <> "<"%char ->
      string_attr name (String c value)
      = name +:+ "=" +:+ DQ +:+ String c value +:+ DQ +:+ " ") /\
  map (fun f => ToLower (fst f)) (Fields v)
  = ["id"; "label"; "group"; "color"; "style"; "colorscheme"; "fontcolor";
     "fontname"; "shape"; "peripheries"].
Proof.
  split; [|split; [|split; [|split]]].
  - intros W HW w. unfold VertexDescription_Write, io_WriteString.
    rewrite nodeStr_unfold. unfold string_attrs.
    now rewrite !string_app_assoc.
  - reflexivity.
  - intros name value. unfold string_attr. now rewrite decide_True.
  - intros name c value Hc. unfold string_attr. now rewrite decide_False.
  - reflexivity.
Qed.

Lemma VertexDescription_Write_string_attrs_witness :
  string_attr "label" "plain" = "label=" +:+ DQ +:+ "plain" +:+ DQ +:+ " ".
Proof.
  apply (proj1 (proj2 (proj2 (proj2
           (VertexDescription_Write_string_attrs (NewVertexDescription "n0")))))
           "label" "p"%char "lain").
  discriminate.
Defined.

(** C5: the attribute [Peripheries] is left out of what a vertex is written
    as when it is zero, and is written as [peripheries="N"], the decimal
    value in double quotes and a space, right before the closing bracket,
    when it is not zero; a negative value is written with its minus sign. *)
Theorem VertexDescription_Write_Peripheries (v : VertexDescription) :
  (Peripheries v = 0 ->
   nodeStr v = ID v +:+ " [" +:+ string_attrs v +:+ "]") /\
  (Peripheries v <> 0 ->
   nodeStr v
   = ID v +:+ " [" +:+ string_attrs v +:+
     "peripheries=" +:+ DQ +:+ fmt_d (Peripheries v) +:+ DQ +:+ " " +:+ "]") /\
  (forall p : positive,
      Peripheries v = Z.neg p ->
      nodeStr v
      = ID v +:+ " [" +:+ string_attrs v +:+
        "peripheries=" +:+ DQ +:+ "-" +:+ fmt_d (Z.pos p) +:+ DQ +:+ " " +:+ "]") /\
  (forall (W : Type) (HW : Writer W) (w : W),
      VertexDescription_Write v w = Write w (nodeStr v)).
Proof.
  split; [|split; [|split]].
  - intros Hp. rewrite nodeStr_unfold, Hp. reflexivity.
  - intros Hp. rewrite nodeStr_unfold. unfold int_attr.
    rewrite decide_False by assumption.
    now rewrite !string_app_assoc.
  - intros p Hp. rewrite nodeStr_unfold, Hp. unfold int_attr.
    rewrite decide_False by discriminate.
    rewrite fmt_d_neg. now rewrite !string_app_assoc.
  - reflexivity.
Qed.

Lemma VertexDescription_Write_Peripheries_witness :
  nodeStr {| ID := "n0"; Label := ""; Group := ""; Color := ""; Style := "";
             ColorScheme := ""; FontColor := ""; FontName := ""; Shape := "";
             Peripheries := -2 |}
  = "n0 [peripheries=" +:+ DQ +:+ "-2" +:+ DQ +:+ " ]".
Proof.
  apply (proj1 (proj2 (VertexDescription_Write_Peripheries
           {| ID := "n0"; Label := ""; Group := ""; Color := ""; Style := "";
              ColorScheme := ""; FontColor := ""; FontName := ""; Shape := "";
              Peripheries := -2 |}))).
  discriminate.
Defined.

(** ** What an edge is written as *)

(** C6: an edge is written as the identifiers of its two ends with [->]
    between them when it is directed and [--] when it is not, and, when its
    style is not empty, the clause [ [ style="..." ] ] after them with the
    style as it is; nothing follows the identifiers when the style is
    empty. *)
Theorem EdgeDescription_Write_text (e : EdgeDescription) :
  let arrow : string := if Directed e then "->" else "--" in
  let clause : string :=
    if decide (EdgeStyle e = "") then ""
    else " [ style=" +:+ DQ +:+ EdgeStyle e +:+ DQ +:+ " ]" in
  (forall (W : Type) (HW : Writer W) (w : W),
      EdgeDescription_Write e w
      = Write w (ID (From e) +:+ " " +:+ arrow +:+ " " +:+ ID (To e) +:+ clause)) /\
  (forall buf : Buffer,
      EdgeDescription_Write e buf
      = (buf +:+ ID (From e) +:+ " " +:+ arrow +:+ " " +:+ ID (To e) +:+ clause,
         None)).
Proof.
  intros arrow clause.
  assert (Hstr : edgeStr e
                 = ID (From e) +:+ " " +:+ arrow +:+ " " +:+ ID (To e) +:+ clause).
  { unfold edgeStr, clause, arrow.
    destruct (decide (EdgeStyle e = "")) as [Hs|Hs].
    - rewrite (nonempty_false _ Hs). now rewrite string_app_nil_r.
    - rewrite (nonempty_true _ Hs). now rewrite !string_app_assoc. }
  unfold EdgeDescription_Write, io_WriteString. rewrite Hstr.
  split; reflexivity.
Qed.

(** ** Running a call *)

Section RunFacts.
Context {W : Type} `{Writer W}.

Lemma bind_Ok {A B} (c : M W A) (k : A -> M W B) m a m1 :
  c m = Ok a m1 -> bind c k m = k a m1.
Proof. intros Hc. unfold bind. now rewrite Hc. Qed.

Lemma bind_Ok_inv {A B} (c : M W A) (k : A -> M W B) m b m2 :
  bind c k m = Ok b m2 ->
  exists a m1, c m = Ok a m1 /\ k a m1 = Ok b m2.
Proof.
  unfold bind. destruct (c m) as [a m1| |]; [|discriminate..].
  intros Hk. now exists a, m1.
Qed.

Lemma load_Ok (p : addr) (o : Obj) (m : Machine W) :
  heap m !! p = Some o -> load p m = Ok o m.
Proof. intros Hp. unfold load. now rewrite Hp. Qed.

Lemma load_Ok_inv (p : addr) (o : Obj) (m m' : Machine W) :
  load p m = Ok o m' -> m' = m /\ heap m !! p = Some o.
Proof.
  unfold load. destruct (heap m !! p) as [o'|]; [|discriminate].
  intros [= -> ->]. now split.
Qed.

Lemma load_Graph_Ok p g (m : Machine W) :
  heap m !! p = Some (OGraph g) -> load_Graph p m = Ok g m.
Proof. intros Hp. unfold load_Graph. now rewrite (bind_Ok _ _ _ _ _ (load_Ok _ _ _ Hp)). Qed.

Lemma load_Graph_Ok_inv p g (m m' : Machine W) :
  load_Graph p m = Ok g m' -> m' = m /\ heap m !! p = Some (OGraph g).
Proof.
  intros Hl. apply bind_Ok_inv in Hl as (o & m1 & Hl & Hk).
  apply load_Ok_inv in Hl as [-> Hp].
  destruct o; try discriminate. now injection Hk as -> ->.
Qed.

Lemma load_Literal_Ok p lit (m : Machine W) :
  heap m !! p = Some (OLiteral lit) -> load_Literal p m = Ok lit m.
Proof. intros Hp. unfold load_Literal. now rewrite (bind_Ok _ _ _ _ _ (load_Ok _ _ _ Hp)). Qed.

Lemma load_Literal_Ok_inv p lit (m m' : Machine W) :
  load_Literal p m = Ok lit m' -> m' = m /\ heap m !! p = Some (OLiteral lit).
Proof.
  intros Hl. apply bind_Ok_inv in Hl as (o & m1 & Hl & Hk).
  apply load_Ok_inv in Hl as [-> Hp].
  destruct o; try discriminate. now injection Hk as -> ->.
Qed.

Lemma load_VertexDescription_Ok p v (m : Machine W) :
  heap m !! p = Some (OVertexDescription v) ->
  load_VertexDescription p m = Ok v m.
Proof.
  intros Hp. unfold load_VertexDescription.
  now rewrite (bind_Ok _ _ _ _ _ (load_Ok _ _ _ Hp)).
Qed.

Lemma load_VertexDescription_Ok_inv p v (m m' : Machine W) :
  load_VertexDescription p m = Ok v m' ->
  m' = m /\ heap m !! p = Some (OVertexDescription v).
Proof.
  intros Hl. apply bind_Ok_inv in Hl as (o & m1 & Hl & Hk).
  apply load_Ok_inv in Hl as [-> Hp].
  destruct o; try discriminate. now injection Hk as -> ->.
Qed.

Lemma load_EdgeDescription_Ok p e (m : Machine W) :
  heap m !! p = Some (OEdgeDescription e) ->
  load_EdgeDescription p m = Ok e m.
Proof.
  intros Hp. unfold load_EdgeDescription.
  now rewrite (bind_Ok _ _ _ _ _ (load_Ok _ _ _ Hp)).
Qed.

Lemma load_EdgeDescription_Ok_inv p e (m m' : Machine W) :
  load_EdgeDescription p m = Ok e m' ->
  m' = m /\ heap m !! p = Some (OEdgeDescription e).
Proof.
  intros Hl. apply bind_Ok_inv in Hl as (o & m1 & Hl & Hk).
  apply load_Ok_inv in Hl as [-> Hp].
  destruct o; try discriminate. now injection Hk as -> ->.
Qed.

(** A call on the writer is one step of the writer, with the heap as it
    was. *)
Lemma on_stream_Ok (f : W -> W * option error) (m : Machine W) :
  on_stream f m
  = Ok (snd (f (stream m))) (mkMachine (heap m) (fst (f (stream m)))).
Proof. unfold on_stream. now destruct (f (stream m)). Qed.

End RunFacts.

(** ** The shape of [Graph.Write] *)

Section Shape.
Context {W : Type} `{Writer W}.

Lemma Graph_Write_S (fuel : nat) (graph : addr) (m : Machine W) :
  Graph_Write (S fuel) graph m
  = (g <- load_Graph graph ;;
     err <- prelude g ;;
     if notnil err then ret err else body_and_close fuel g) m.
Proof.
  simpl. unfold prelude, body_and_close, bind.
  destruct (load_Graph graph m) as [g m0| |]; [|reflexivity..].
  rewrite !on_stream_Ok.
  assert (Hh : (if IsSubGraph g
                then "subgraph " +:+ Name g +:+ " {" +:+ LF
                else "digraph " +:+ Name g +:+ " {" +:+ LF) = header_line g).
  { unfold header_line. now destruct (IsSubGraph g). }
  rewrite Hh.
  destruct (snd (io_WriteString (stream m0) (header_line g))) as [e|]; simpl;
    [reflexivity|].
  destruct (nonempty (Rank g)); simpl; [|reflexivity].
  rewrite !on_stream_Ok.
  change ("rank" +:+ "=" +:+ DQ +:+ Rank g +:+ DQ +:+ LF) with (rank_line g).
  destruct (snd (io_WriteString _ (rank_line g))) as [e|]; reflexivity.
Qed.

(** The loop goes through the elements that are written with no error. *)
Lemma range_Body_app (lw : Element -> M W (option error))
    (pre rest : list Element) (m m1 : Machine W) :
  range_Body lw pre m = Ok None m1 ->
  range_Body lw (pre ++ rest) m = range_Body lw rest m1.
Proof.
  revert m. induction pre as [|line pre IH]; intros m Hpre.
  - simpl in Hpre. now injection Hpre as ->.
  - simpl in *.
    apply bind_Ok_inv in Hpre as (err & ma & Hline & Hpre).
    apply bind_Ok_inv in Hpre as (err2 & mb & Hlf & Hpre).
    rewrite (bind_Ok _ _ _ _ _ Hline), (bind_Ok _ _ _ _ _ Hlf).
    destruct (notnil err || notnil err2)%bool; [discriminate|].
    now apply IH.
Qed.

(** An element whose write fails: the line feed is written all the same,
    and the loop returns the error of the element. *)
Lemma range_Body_failing (lw : Element -> M W (option error))
    (line : Element) (rest : list Element) (m m2 : Machine W) (err : error) :
  lw line m = Ok (Some err) m2 ->
  range_Body lw (line :: rest) m
  = Ok (Some (Some err))
       (mkMachine (heap m2) (fst (Write (stream m2) LF))).
Proof.
  intros Hline. simpl.
  rewrite (bind_Ok _ _ _ _ _ Hline).
  unfold bind at 1. rewrite on_stream_Ok. reflexivity.
Qed.

End Shape.

(** ** The recursion budget

    A call that returns within some budget returns the same within any
    larger one: the budget only tells a call that returns from one that does
    not. *)

Section Fuel.
Context {W : Type} `{Writer W}.

Lemma refines_refl {A} (c : M W A) : refines c c.
Proof. intros m a m' Hrun. exact Hrun. Qed.

Lemma refines_bind {A B} (c c' : M W A) (k k' : A -> M W B) :
  refines c c' -> (forall a, refines (k a) (k' a)) ->
  refines (bind c k) (bind c' k').
Proof.
  intros Hc Hk m b m2 Hrun.
  apply bind_Ok_inv in Hrun as (a & m1 & Hc1 & Hk1).
  rewrite (bind_Ok _ _ _ _ _ (Hc _ _ _ Hc1)). now apply Hk.
Qed.

Lemma refines_Element_Write (GW GW' : addr -> M W (option error)) :
  (forall p, refines (GW p) (GW' p)) ->
  forall line, refines (Element_Write GW line) (Element_Write GW' line).
Proof.
  intros HGW [p|p|p|p]; simpl; [apply refines_refl..|apply HGW].
Qed.

Lemma refines_range_Body (lw lw' : Element -> M W (option error)) :
  (forall line, refines (lw line) (lw' line)) ->
  forall body, refines (range_Body lw body) (range_Body lw' body).
Proof.
  intros Hlw body. induction body as [|line rest IH]; simpl.
  - apply refines_refl.
  - apply refines_bind; [apply Hlw|]. intros err.
    apply refines_bind; [apply refines_refl|]. intros err2.
    destruct (notnil err || notnil err2)%bool; [apply refines_refl|exact IH].
Qed.

Lemma Graph_Write_fuel_S (fuel : nat) :
  forall graph, refines (Graph_Write fuel graph) (Graph_Write (S fuel) graph).
Proof.
  induction fuel as [|fuel IH]; intros graph m r m' Hrun; [discriminate|].
  rewrite Graph_Write_S in Hrun. rewrite Graph_Write_S.
  revert m r m' Hrun.
  apply refines_bind; [apply refines_refl|]. intros g.
  apply refines_bind; [apply refines_refl|]. intros err.
  destruct (notnil err); [apply refines_refl|].
  unfold body_and_close.
  apply refines_bind; [|intros r; apply refines_refl].
  apply refines_range_Body, refines_Element_Write, IH.
Qed.

Lemma Graph_Write_fuel_le (fuel fuel' : nat) (graph : addr) :
  (fuel <= fuel')%nat ->
  refines (Graph_Write fuel graph) (Graph_Write fuel' graph).
Proof.
  induction 1 as [|fuel' Hle IH]; [apply refines_refl|].
  intros m r m' Hrun. now apply Graph_Write_fuel_S, IH.
Qed.

End Fuel.

(** ** Errors in the loop of [Graph.Write] *)

Section LoopErrors.
Context {W : Type} `{Writer W}.

(** A graph whose header, rank line and first elements [pre] are written
    with no error, and whose next element fails with [err]. *)
Lemma Graph_Write_failing_element (fuel : nat) (graph : addr) (g : Graph)
    (pre post : list Element) (line : Element)
    (m m0 m1 m2 : Machine W) (err : error) :
  heap m !! graph = Some (OGraph g) ->
  Body g = pre ++ line :: post ->
  prelude g m = Ok None m0 ->
  range_Body (Element_Write (Graph_Write fuel)) pre m0 = Ok None m1 ->
  Element_Write (Graph_Write fuel) line m1 = Ok (Some err) m2 ->
  Graph_Write (S fuel) graph m
  = Ok (Some err) (mkMachine (heap m2) (fst (Write (stream m2) LF))).
Proof.
  intros Hg Hbody Hpre Hloop Hline.
  rewrite Graph_Write_S.
  rewrite (bind_Ok _ _ _ _ _ (load_Graph_Ok _ _ _ Hg)).
  rewrite (bind_Ok _ _ _ _ _ Hpre). simpl.
  unfold body_and_close. rewrite Hbody.
  assert (Hr : range_Body (Element_Write (Graph_Write fuel))
                 (pre ++ line :: post) m0
               = Ok (Some (Some err))
                    (mkMachine (heap m2) (fst (Write (stream m2) LF)))).
  { rewrite (range_Body_app _ _ _ _ _ Hloop).
    now apply range_Body_failing. }
  now rewrite (bind_Ok _ _ _ _ _ Hr).
Qed.

(** A graph whose header, rank line and first elements [pre] are written
    with no error, and whose next element is written with no error but
    the line feed after it fails: the call stops there, the closing brace
    is not written, and the error of the line feed is dropped. *)
Lemma Graph_Write_line_feed_error_dropped (fuel : nat) (graph : addr)
    (g : Graph) (pre post : list Element) (line : Element)
    (m m0 m1 m2 : Machine W) (err2 : error) :
  heap m !! graph = Some (OGraph g) ->
  Body g = pre ++ line :: post ->
  prelude g m = Ok None m0 ->
  range_Body (Element_Write (Graph_Write fuel)) pre m0 = Ok None m1 ->
  Element_Write (Graph_Write fuel) line m1 = Ok None m2 ->
  snd (Write (stream m2) LF) = Some err2 ->
  Graph_Write (S fuel) graph m
  = Ok None (mkMachine (heap m2) (fst (Write (stream m2) LF))).
Proof.
  intros Hg Hbody Hpre Hloop Hline Hlf.
  rewrite Graph_Write_S.
  rewrite (bind_Ok _ _ _ _ _ (load_Graph_Ok _ _ _ Hg)).
  rewrite (bind_Ok _ _ _ _ _ Hpre). simpl.
  unfold body_and_close. rewrite Hbody.
  assert (Hr : range_Body (Element_Write (Graph_Write fuel))
                 (pre ++ line :: post) m0
               = Ok (Some None)
                    (mkMachine (heap m2) (fst (Write (stream m2) LF)))).
  { rewrite (range_Body_app _ _ _ _ _ Hloop). simpl.
    rewrite (bind_Ok _ _ _ _ _ Hline).
    unfold bind at 1. rewrite on_stream_Ok.
    unfold io_WriteString. rewrite Hlf. reflexivity. }
  now rewrite (bind_Ok _ _ _ _ _ Hr).
Qed.

End LoopErrors.

(** C1, as the claim has it, fails: with the write of an element and the
    write of the line feed after it both failing, [Graph.Write] returns the
    error of the element, which is not the error of the line feed; and with
    the write of the line feed alone failing, it returns no error. *)
Lemma Graph_Write_later_error_does_not_win :
  (exists w : Scripted,
      Graph_Write 1 0%nat
        (mkMachine one_line_heap
           (mkScripted "" [Accept; Fail 3 err_element; Fail 0 err_line_feed]))
      = Ok (Some err_element) (mkMachine one_line_heap w)) /\
  Some err_element <> Some err_line_feed /\
  (exists w : Scripted,
      Graph_Write 1 0%nat
        (mkMachine one_line_heap
           (mkScripted "" [Accept; Accept; Fail 0 err_line_feed]))
      = Ok None (mkMachine one_line_heap w)).
Proof.
  split; [|split].
  - exists (mkScripted ("digraph G {" +:+ LF +:+ "par") []). reflexivity.
  - discriminate.
  - exists (mkScripted ("digraph G {" +:+ LF +:+ "partial") []). reflexivity.
Qed.

(** C1, amended: in the loop over the body, when the write of an element
    fails and the write of the line feed after it fails too, [Graph.Write]
    returns the error of the element: the earlier error wins. *)
Theorem Graph_Write_earlier_error_wins (W : Type) (HW : Writer W)
    (fuel : nat) (graph : addr) (g : Graph)
    (pre post : list Element) (line : Element)
    (m m0 m1 m2 : Machine W) (w2 : W) (err err2 : error) :
  heap m !! graph = Some (OGraph g) ->
  Body g = pre ++ line :: post ->
  prelude g m = Ok None m0 ->
  range_Body (Element_Write (Graph_Write fuel)) pre m0 = Ok None m1 ->
  Element_Write (Graph_Write fuel) line m1 = Ok (Some err) m2 ->
  io_WriteString (stream m2) LF = (w2, Some err2) ->
  Graph_Write (S fuel) graph m = Ok (Some err) (mkMachine (heap m2) w2).
Proof.
  intros Hg Hbody Hpre Hloop Hline Hlf.
  rewrite (Graph_Write_failing_element fuel graph g pre post line m m0 m1 m2 err)
    by assumption.
  unfold io_WriteString in Hlf. now rewrite Hlf.
Qed.

Lemma Graph_Write_earlier_error_wins_witness :
  Graph_Write 1 0%nat
    (mkMachine one_line_heap
       (mkScripted "" [Accept; Fail 3 err_element; Fail 0 err_line_feed]))
  = Ok (Some err_element)
       (mkMachine one_line_heap (mkScripted ("digraph G {" +:+ LF +:+ "par") [])).
Proof.
  apply (Graph_Write_earlier_error_wins Scripted _ 0 0%nat
           {| Name := "G"; Body := [ptr_Literal 1%nat]; IsSubGraph := false;
              Rank := "" |}
           [] [] (ptr_Literal 1%nat)
           (mkMachine one_line_heap
              (mkScripted "" [Accept; Fail 3 err_element; Fail 0 err_line_feed]))
           (mkMachine one_line_heap
              (mkScripted ("digraph G {" +:+ LF)
                 [Fail 3 err_element; Fail 0 err_line_feed]))
           (mkMachine one_line_heap
              (mkScripted ("digraph G {" +:+ LF)
                 [Fail 3 err_element; Fail 0 err_line_feed]))
           (mkMachine one_line_heap
              (mkScripted ("digraph G {" +:+ LF +:+ "par") [Fail 0 err_line_feed]))
           (mkScripted ("digraph G {" +:+ LF +:+ "par") [])
           err_element err_line_feed);
    reflexivity.
Defined.

(** C10: in the loop over the body, when the write of an element returns
    an error, the line feed is still handed to the writer, in the state the
    failed write left it in, before [Graph.Write] returns; it returns right
    after this second write, with the error of the element, and nothing of
    the rest of the body nor the closing brace is written. *)
Theorem Graph_Write_line_feed_after_failure (W : Type) (HW : Writer W)
    (fuel : nat) (graph : addr) (g : Graph)
    (pre post : list Element) (line : Element)
    (m m0 m1 m2 : Machine W) (err : error) :
  heap m !! graph = Some (OGraph g) ->
  Body g = pre ++ line :: post ->
  prelude g m = Ok None m0 ->
  range_Body (Element_Write (Graph_Write fuel)) pre m0 = Ok None m1 ->
  Element_Write (Graph_Write fuel) line m1 = Ok (Some err) m2 ->
  Graph_Write (S fuel) graph m
  = Ok (Some err) (mkMachine (heap m2) (fst (io_WriteString (stream m2) LF))).
Proof.
  intros Hg Hbody Hpre Hloop Hline.
  now apply (Graph_Write_failing_element fuel graph g pre post line m m0 m1 m2 err).
Qed.

(** A writer that took three bytes of the failing line holds one line feed
    more, right after them, when the call returns. *)
Lemma Graph_Write_line_feed_after_failure_witness :
  Graph_Write 1 0%nat
    (mkMachine one_line_heap (mkScripted "" [Accept; Fail 3 err_element]))
  = Ok (Some err_element)
       (mkMachine one_line_heap
          (mkScripted ("digraph G {" +:+ LF +:+ "par" +:+ LF) [])).
Proof.
  exact (Graph_Write_line_feed_after_failure Scripted _ 0 0%nat
           {| Name := "G"; Body := [ptr_Literal 1%nat]; IsSubGraph := false;
              Rank := "" |}
           [] [] (ptr_Literal 1%nat)
           (mkMachine one_line_heap (mkScripted "" [Accept; Fail 3 err_element]))
           (mkMachine one_line_heap
              (mkScripted ("digraph G {" +:+ LF) [Fail 3 err_element]))
           (mkMachine one_line_heap
              (mkScripted ("digraph G {" +:+ LF) [Fail 3 err_element]))
           (mkMachine one_line_heap
              (mkScripted ("digraph G {" +:+ LF +:+ "par") []))
           err_element eq_refl eq_refl eq_refl eq_refl eq_refl).
Defined.

(** ** Whole graphs on a writer that never fails *)

Lemma renders_ret {A} (h : list Obj) (a : A) : renders (ret a) h a "".
Proof. intros buf. unfold ret. now rewrite string_app_nil_r. Qed.

Lemma renders_bind {A B} (c : M Buffer A) (k : A -> M Buffer B) h a b o1 o2 :
  renders c h a o1 -> renders (k a) h b o2 ->
  renders (bind c k) h b (o1 +:+ o2).
Proof.
  intros Hc Hk buf. rewrite (bind_Ok _ _ _ _ _ (Hc buf)), Hk.
  now rewrite string_app_assoc.
Qed.

Lemma renders_WriteString (h : list Obj) (s : string) :
  renders (on_stream (fun w => io_WriteString w s)) h None s.
Proof. intros buf. reflexivity. Qed.

Lemma renders_Literal h p lit (GW : addr -> M Buffer (option error)) :
  h !! p = Some (OLiteral lit) ->
  renders (Element_Write GW (ptr_Literal p)) h None (Line lit).
Proof.
  intros Hp buf. simpl.
  now rewrite (bind_Ok _ _ _ _ _ (load_Literal_Ok p lit (mkMachine h buf) Hp)).
Qed.

Lemma renders_VertexDescription h p v (GW : addr -> M Buffer (option error)) :
  h !! p = Some (OVertexDescription v) ->
  renders (Element_Write GW (ptr_VertexDescription p)) h None (nodeStr v).
Proof.
  intros Hp buf. simpl.
  now rewrite (bind_Ok _ _ _ _ _
                 (load_VertexDescription_Ok p v (mkMachine h buf) Hp)).
Qed.

Lemma renders_EdgeDescription h p e (GW : addr -> M Buffer (option error)) :
  h !! p = Some (OEdgeDescription e) ->
  renders (Element_Write GW (ptr_EdgeDescription p)) h None (edgeStr e).
Proof.
  intros Hp buf. simpl.
  now rewrite (bind_Ok _ _ _ _ _
                 (load_EdgeDescription_Ok p e (mkMachine h buf) Hp)).
Qed.

Lemma renders_range_Body_nil h (lw : Element -> M Buffer (option error)) :
  renders (range_Body lw []) h None "".
Proof. apply renders_ret. Qed.

Lemma renders_range_Body_cons h (lw : Element -> M Buffer (option error))
    line rest o1 o2 :
  renders (lw line) h None o1 ->
  renders (range_Body lw rest) h None o2 ->
  renders (range_Body lw (line :: rest)) h None (o1 +:+ LF +:+ o2).
Proof.
  intros Hline Hrest. simpl.
  eapply renders_bind; [exact Hline|].
  eapply renders_bind; [apply renders_WriteString|].
  exact Hrest.
Qed.

(** A graph is written as its header line, its rank line if it has a rank,
    its body and a closing brace. *)
Lemma renders_Graph_Write (fuel : nat) h p g body_out :
  h !! p = Some (OGraph g) ->
  renders (range_Body (Element_Write (Graph_Write fuel)) (Body g)) h None body_out ->
  renders (Graph_Write (S fuel) p) h None
    (header_line g +:+ (if nonempty (Rank g) then rank_line g else "") +:+
     body_out +:+ "}").
Proof.
  intros Hp Hbody buf. rewrite Graph_Write_S.
  rewrite (bind_Ok _ _ _ _ _ (load_Graph_Ok p g (mkMachine h buf) Hp)).
  assert (Hpre : renders (prelude g) h None
                   (header_line g +:+ (if nonempty (Rank g) then rank_line g else ""))).
  { unfold prelude.
    eapply renders_bind; [apply renders_WriteString|]. simpl.
    destruct (nonempty (Rank g)); [apply renders_WriteString|apply renders_ret]. }
  rewrite (bind_Ok _ _ _ _ _ (Hpre buf)). simpl.
  unfold body_and_close.
  rewrite (bind_Ok _ _ _ _ _ (Hbody _)).
  rewrite renders_WriteString.
  now rewrite !string_app_assoc.
Qed.

(** C7: a graph named [G] that is no subgraph, with an empty body and no
    rank, is written as the header line and the closing brace, with no line
    feed after the brace, on a writer that takes every request. *)
Theorem Graph_Write_empty (h : list Obj) (graph : addr) (fuel : nat) (buf : Buffer) :
  h !! graph
  = Some (OGraph {| Name := "G"; Body := []; IsSubGraph := false; Rank := "" |}) ->
  Graph_Write (S fuel) graph (mkMachine h buf)
  = Ok None (mkMachine h (buf +:+ "digraph G {" +:+ LF +:+ "}")).
Proof.
  intros Hg.
  apply (renders_Graph_Write fuel h graph _ "" Hg).
  apply renders_range_Body_nil.
Qed.

Lemma Graph_Write_empty_witness :
  Graph_Write 1 0%nat (mkMachine [OGraph (NewGraph "G")] ("" : Buffer))
  = Ok None (mkMachine [OGraph (NewGraph "G")] ("digraph G {" +:+ LF +:+ "}")).
Proof.
  apply (Graph_Write_empty [OGraph (NewGraph "G")] 0%nat 0%nat ("" : Buffer)).
  reflexivity.
Defined.

(** C2: a graph named [G] of rank [same] that holds one subgraph named [S],
    which holds one vertex [a] with no attribute set, is written as the two
    nested blocks, the rank line first, on a writer that takes every
    request. *)
Theorem Graph_Write_nested (h : list Obj) (graph sGraph a : addr) (fuel : nat)
    (buf : Buffer) :
  h !! graph
  = Some (OGraph {| Name := "G"; Body := [ptr_Graph sGraph];
                    IsSubGraph := false; Rank := "same" |}) ->
  h !! sGraph
  = Some (OGraph {| Name := "S"; Body := [ptr_VertexDescription a];
                    IsSubGraph := true; Rank := "" |}) ->
  h !! a = Some (OVertexDescription (NewVertexDescription "a")) ->
  Graph_Write (S (S fuel)) graph (mkMachine h buf)
  = Ok None
      (mkMachine h
         (buf +:+ "digraph G {" +:+ LF +:+
          "rank=" +:+ DQ +:+ "same" +:+ DQ +:+ LF +:+
          "subgraph S {" +:+ LF +:+
          "a []" +:+ LF +:+
          "}" +:+ LF +:+
          "}")).
Proof.
  intros Hg Hs Ha.
  assert (Hsub : renders (Graph_Write (S fuel) sGraph) h None
                   ("subgraph S {" +:+ LF +:+ "a []" +:+ LF +:+ "}")).
  { apply (renders_Graph_Write fuel h sGraph _ ("a []" +:+ LF +:+ "") Hs).
    apply (renders_range_Body_cons _ _ _ _ "a []" "");
      [|apply renders_range_Body_nil].
    apply (renders_VertexDescription _ _ _ _ Ha). }
  apply (renders_Graph_Write (S fuel) h graph _
           (("subgraph S {" +:+ LF +:+ "a []" +:+ LF +:+ "}") +:+ LF +:+ "") Hg).
  apply renders_range_Body_cons; [exact Hsub|apply renders_range_Body_nil].
Qed.

Lemma Graph_Write_nested_witness :
  (_ <- alloc (OGraph {| Name := "G"; Body := []; IsSubGraph := false;
                         Rank := "same" |}) ;;
   _ <- alloc (OGraph {| Name := "S"; Body := []; IsSubGraph := true;
                         Rank := "" |}) ;;
   _ <- alloc (OVertexDescription (NewVertexDescription "a")) ;;
   _ <- Graph_AddVertex 1%nat 2%nat ;;
   _ <- Graph_AddSubGraph 0%nat 1%nat ;;
   Graph_Write 2 0%nat) (mkMachine [] ("" : Buffer))
  = Ok None
      (mkMachine nested_heap
         ("digraph G {" +:+ LF +:+
          "rank=" +:+ DQ +:+ "same" +:+ DQ +:+ LF +:+
          "subgraph S {" +:+ LF +:+
          "a []" +:+ LF +:+
          "}" +:+ LF +:+
          "}")).
Proof.
  exact (Graph_Write_nested nested_heap 0%nat 1%nat 2%nat 0%nat ("" : Buffer)
           eq_refl eq_refl eq_refl).
Defined.

(** ** [Graph.Write] leaves the heap as it is *)

Section Frame.
Context {W : Type} `{Writer W}.

Lemma keeps_heap_ret {A} (a : A) : keeps_heap (W:=W) (ret a).
Proof. intros m a' m' [= _ <-]. reflexivity. Qed.

Lemma keeps_heap_bind {A B} (c : M W A) (k : A -> M W B) :
  keeps_heap c -> (forall a, keeps_heap (W:=W) (k a)) -> keeps_heap (W:=W) (bind c k).
Proof.
  intros Hc Hk m b m2 Hrun.
  apply bind_Ok_inv in Hrun as (a & m1 & Hc1 & Hk1).
  rewrite (Hk _ _ _ _ Hk1). now apply (Hc _ _ _ Hc1).
Qed.

Lemma keeps_heap_on_stream (f : W -> W * option error) :
  keeps_heap (W:=W) (on_stream f).
Proof. intros m a m'. rewrite on_stream_Ok. now intros [= _ <-]. Qed.

Lemma keeps_heap_load_Graph p : keeps_heap (W:=W) (load_Graph p).
Proof. intros m g m' Hl. now apply load_Graph_Ok_inv in Hl as [-> _]. Qed.

Lemma keeps_heap_load_Literal p : keeps_heap (W:=W) (load_Literal p).
Proof. intros m g m' Hl. now apply load_Literal_Ok_inv in Hl as [-> _]. Qed.

Lemma keeps_heap_load_VertexDescription p :
  keeps_heap (W:=W) (load_VertexDescription p).
Proof.
  intros m g m' Hl. now apply load_VertexDescription_Ok_inv in Hl as [-> _].
Qed.

Lemma keeps_heap_load_EdgeDescription p :
  keeps_heap (W:=W) (load_EdgeDescription p).
Proof.
  intros m g m' Hl. now apply load_EdgeDescription_Ok_inv in Hl as [-> _].
Qed.

Lemma keeps_heap_Element_Write (GW : addr -> M W (option error)) :
  (forall p, keeps_heap (W:=W) (GW p)) ->
  forall line, keeps_heap (W:=W) (Element_Write GW line).
Proof.
  intros HGW [p|p|p|p]; simpl; [| | |apply HGW];
    (apply keeps_heap_bind;
     [|intros a; apply keeps_heap_on_stream]).
  - apply keeps_heap_load_Literal.
  - apply keeps_heap_load_VertexDescription.
  - apply keeps_heap_load_EdgeDescription.
Qed.

Lemma keeps_heap_range_Body (lw : Element -> M W (option error)) :
  (forall line, keeps_heap (W:=W) (lw line)) ->
  forall body, keeps_heap (W:=W) (range_Body lw body).
Proof.
  intros Hlw body. induction body as [|line rest IH]; simpl.
  - apply keeps_heap_ret.
  - apply keeps_heap_bind; [apply Hlw|]. intros err.
    apply keeps_heap_bind; [apply keeps_heap_on_stream|]. intros err2.
    destruct (notnil err || notnil err2)%bool;
      [apply keeps_heap_ret|exact IH].
Qed.

Lemma keeps_heap_Graph_Write (fuel : nat) :
  forall graph, keeps_heap (W:=W) (Graph_Write fuel graph).
Proof.
  induction fuel as [|fuel IH]; intros graph m r m' Hrun.
  - discriminate.
  - rewrite Graph_Write_S in Hrun. revert m r m' Hrun.
    apply keeps_heap_bind; [apply keeps_heap_load_Graph|]. intros g.
    apply keeps_heap_bind.
    + unfold prelude.
      apply keeps_heap_bind; [apply keeps_heap_on_stream|]. intros err.
      destruct (notnil err); [apply keeps_heap_ret|].
      destruct (nonempty (Rank g));
        [apply keeps_heap_on_stream|apply keeps_heap_ret].
    + intros err. destruct (notnil err); [apply keeps_heap_ret|].
      unfold body_and_close.
      apply keeps_heap_bind.
      * apply keeps_heap_range_Body, keeps_heap_Element_Write, IH.
      * intros [e|]; [apply keeps_heap_ret|apply keeps_heap_on_stream].
Qed.

End Frame.

Lemma uniform_ext {A} (c c' : M Buffer A) :
  (forall m, c m = c' m) -> uniform c' -> uniform c.
Proof.
  intros Hext Hc' h buf a m' Hrun. rewrite Hext in Hrun.
  destruct (Hc' _ _ _ _ Hrun) as [out Hout].
  exists out. intros buf'. now rewrite Hext.
Qed.

Lemma uniform_ret {A} (a : A) : uniform (ret a).
Proof.
  intros h buf a' m' [= <- _]. exists "". apply renders_ret.
Qed.

Lemma uniform_bind {A B} (c : M Buffer A) (k : A -> M Buffer B) :
  uniform c -> (forall a, uniform (k a)) -> uniform (bind c k).
Proof.
  intros Hc Hk h buf b m2 Hrun.
  apply bind_Ok_inv in Hrun as (a & m1 & Hc1 & Hk1).
  destruct (Hc _ _ _ _ Hc1) as [o1 Ho1].
  rewrite (Ho1 buf) in Hc1. injection Hc1 as <-.
  destruct (Hk _ _ _ _ _ Hk1) as [o2 Ho2].
  exists (o1 +:+ o2). now apply renders_bind with a.
Qed.

Lemma uniform_WriteString (s : string) :
  uniform (on_stream (fun w => io_WriteString w s)).
Proof.
  intros h buf a m' Hrun. exists s.
  rewrite (renders_WriteString h s buf) in Hrun. injection Hrun as <- _.
  apply renders_WriteString.
Qed.

Lemma uniform_load_Graph p : uniform (load_Graph p).
Proof.
  intros h buf g m' Hl. apply load_Graph_Ok_inv in Hl as [_ Hp].
  exists "". intros buf'. rewrite string_app_nil_r.
  now apply load_Graph_Ok.
Qed.

Lemma uniform_load_Literal p : uniform (load_Literal p).
Proof.
  intros h buf g m' Hl. apply load_Literal_Ok_inv in Hl as [_ Hp].
  exists "". intros buf'. rewrite string_app_nil_r.
  now apply load_Literal_Ok.
Qed.

Lemma uniform_load_VertexDescription p : uniform (load_VertexDescription p).
Proof.
  intros h buf g m' Hl. apply load_VertexDescription_Ok_inv in Hl as [_ Hp].
  exists "". intros buf'. rewrite string_app_nil_r.
  now apply load_VertexDescription_Ok.
Qed.

Lemma uniform_load_EdgeDescription p : uniform (load_EdgeDescription p).
Proof.
  intros h buf g m' Hl. apply load_EdgeDescription_Ok_inv in Hl as [_ Hp].
  exists "". intros buf'. rewrite string_app_nil_r.
  now apply load_EdgeDescription_Ok.
Qed.

Lemma uniform_Element_Write (GW : addr -> M Buffer (option error)) :
  (forall p, uniform (GW p)) -> forall line, uniform (Element_Write GW line).
Proof.
  intros HGW [p|p|p|p]; simpl; [| | |apply HGW]; apply uniform_bind.
  - apply uniform_load_Literal.
  - intros lit. apply (uniform_WriteString (Line lit)).
  - apply uniform_load_VertexDescription.
  - intros v. apply (uniform_WriteString (nodeStr v)).
  - apply uniform_load_EdgeDescription.
  - intros e. apply (uniform_WriteString (edgeStr e)).
Qed.

Lemma uniform_range_Body (lw : Element -> M Buffer (option error)) :
  (forall line, uniform (lw line)) -> forall body, uniform (range_Body lw body).
Proof.
  intros Hlw body. induction body as [|line rest IH]; simpl.
  - apply uniform_ret.
  - apply uniform_bind; [apply Hlw|]. intros err.
    apply uniform_bind; [apply uniform_WriteString|]. intros err2.
    destruct (notnil err || notnil err2)%bool; [apply uniform_ret|exact IH].
Qed.

Lemma uniform_Graph_Write (fuel : nat) :
  forall graph, uniform (Graph_Write fuel graph).
Proof.
  induction fuel as [|fuel IH]; intros graph.
  - intros h buf r m' Hrun. discriminate.
  - eapply uniform_ext; [intros m; apply Graph_Write_S|].
    apply uniform_bind; [apply uniform_load_Graph|]. intros g.
    apply uniform_bind.
    + unfold prelude.
      apply uniform_bind; [apply uniform_WriteString|]. intros err.
      destruct (notnil err); [apply uniform_ret|].
      destruct (nonempty (Rank g));
        [apply uniform_WriteString|apply uniform_ret].
    + intros err. destruct (notnil err); [apply uniform_ret|].
      unfold body_and_close.
      apply uniform_bind.
      * apply uniform_range_Body, uniform_Element_Write, IH.
      * intros [e|]; [apply uniform_ret|apply uniform_WriteString].
Qed.

(** C8: [Graph.Write] changes no object: when it returns, on any writer,
    the heap is the one it started from, so the graph has the name, body,
    subgraph flag and rank it had, and so has every object it holds; and a
    second call right after the first, on a writer that takes every
    request, returns the same value after writing the same text again. *)
Theorem Graph_Write_frame :
  (forall (W : Type) (HW : Writer W) (fuel : nat) (graph : addr)
          (m m' : Machine W) (r : option error),
      Graph_Write fuel graph m = Ok r m' -> heap m' = heap m) /\
  (forall (fuel : nat) (graph : addr) (h : list Obj) (buf : Buffer)
          (m' : Machine Buffer) (r : option error),
      Graph_Write fuel graph (mkMachine h buf) = Ok r m' ->
      exists out : string,
        m' = mkMachine h (buf +:+ out) /\
        Graph_Write fuel graph m' = Ok r (mkMachine h (buf +:+ out +:+ out))).
Proof.
  split.
  - intros W HW fuel graph m m' r Hrun.
    now apply (keeps_heap_Graph_Write fuel graph m r m').
  - intros fuel graph h buf m' r Hrun.
    destruct (uniform_Graph_Write fuel graph _ _ _ _ Hrun) as [out Hout].
    exists out. rewrite (Hout buf) in Hrun. injection Hrun as Hm.
    subst m'. split; [reflexivity|].
    etransitivity; [exact (Hout (buf +:+ out))|].
    now rewrite string_app_assoc.
Qed.

Lemma Graph_Write_frame_witness :
  exists out : string,
    mkMachine nested_heap
      ("digraph G {" +:+ LF +:+ "rank=" +:+ DQ +:+ "same" +:+ DQ +:+ LF +:+
       "subgraph S {" +:+ LF +:+ "a []" +:+ LF +:+ "}" +:+ LF +:+ "}")
    = mkMachine nested_heap ("" +:+ out) /\
    Graph_Write 2 0%nat
      (mkMachine nested_heap
         ("digraph G {" +:+ LF +:+ "rank=" +:+ DQ +:+ "same" +:+ DQ +:+ LF +:+
          "subgraph S {" +:+ LF +:+ "a []" +:+ LF +:+ "}" +:+ LF +:+ "}"))
    = Ok None (mkMachine nested_heap ("" +:+ out +:+ out)).
Proof.
  exact (proj2 Graph_Write_frame 2%nat 0%nat nested_heap ("" : Buffer)
           (mkMachine nested_heap
              ("digraph G {" +:+ LF +:+ "rank=" +:+ DQ +:+ "same" +:+ DQ +:+ LF +:+
               "subgraph S {" +:+ LF +:+ "a []" +:+ LF +:+ "}" +:+ LF +:+ "}"))
           None eq_refl).
Defined.

(** ** What an edge and a body keep of a vertex *)

Lemma assign_vertices_other (muts : list (addr * VertexDescription))
    (h : list Obj) (p : addr) :
  Forall (fun pd => fst pd <> p) muts ->
  assign_vertices muts h !! p = h !! p.
Proof.
  revert h. induction muts as [|pd muts IH]; intros h Hm; [reflexivity|].
  apply Forall_cons in Hm as [Hpd Hm].
  change (assign_vertices (pd :: muts) h)
    with (assign_vertices muts (<[fst pd := OVertexDescription (snd pd)]> h)).
  rewrite IH by assumption.
  now apply list_lookup_insert_ne.
Qed.

Section Builder.
Context {W : Type} `{Writer W}.

Lemma store_Ok_inv (p : addr) (o : Obj) (m m' : Machine W) :
  store p o m = Ok tt m' ->
  (p < length (heap m))%nat /\
  m' = mkMachine (<[p := o]> (heap m)) (stream m).
Proof.
  unfold store. destruct (decide (p < length (heap m))%nat); [|discriminate].
  intros [= <-]. now split.
Qed.

Lemma append_Body_Ok_inv (graph : addr) (line : Element) (m m' : Machine W) :
  append_Body graph line m = Ok tt m' ->
  exists g : Graph,
    heap m !! graph = Some (OGraph g) /\
    m' = mkMachine
           (<[graph := OGraph {| Name := Name g; Body := Body g ++ [line];
                                 IsSubGraph := IsSubGraph g; Rank := Rank g |}]>
              (heap m))
           (stream m).
Proof.
  intros Hrun. apply bind_Ok_inv in Hrun as (g & m1 & Hl & Hs).
  apply load_Graph_Ok_inv in Hl as [-> Hg].
  apply store_Ok_inv in Hs as [_ ->]. now exists g.
Qed.

Lemma append_Body_Ok (graph : addr) (line : Element) (g : Graph) (m : Machine W) :
  heap m !! graph = Some (OGraph g) ->
  append_Body graph line m
  = Ok tt (mkMachine (<[graph := OGraph (with_line g line)]> (heap m)) (stream m)).
Proof.
  intros Hg. unfold append_Body.
  rewrite (bind_Ok _ _ _ _ _ (load_Graph_Ok _ _ _ Hg)).
  unfold store. apply lookup_lt_Some in Hg.
  now rewrite decide_True by assumption.
Qed.

End Builder.

(** C9: [AddEdge] copies the two vertices into the new edge.  After it, the
    body of the graph ends with a pointer to an edge that holds the values
    the two vertices had at the call, and whatever is assigned to the two
    vertices afterwards, the edge holds these values still and is written
    from them; on a graph and two vertices the call returns.  [AddVertex],
    on a graph, returns with the pointer it is given at the end of the
    body: the vertex is written with the value it has when the graph is
    written; it returns on nothing but a graph. *)
Theorem Graph_AddEdge_copies_AddVertex_shares (W : Type) (HW : Writer W) :
  (forall (graph v1 v2 : addr) (directed : bool) (style : string)
          (m m1 : Machine W),
      Graph_AddEdge graph v1 v2 directed style m = Ok tt m1 ->
      exists (from to : VertexDescription) (g : Graph) (edge : addr),
        let e := {| From := from; To := to; Directed := directed;
                    EdgeStyle := style |} in
        heap m !! v1 = Some (OVertexDescription from) /\
        heap m !! v2 = Some (OVertexDescription to) /\
        heap m !! graph = Some (OGraph g) /\
        heap m1 !! graph
        = Some (OGraph {| Name := Name g;
                          Body := Body g ++ [ptr_EdgeDescription edge];
                          IsSubGraph := IsSubGraph g; Rank := Rank g |}) /\
        forall muts : list (addr * VertexDescription),
          Forall (fun pd => fst pd = v1 \/ fst pd = v2) muts ->
          assign_vertices muts (heap m1) !! edge = Some (OEdgeDescription e) /\
          forall (GW : addr -> M W (option error)) (w : W),
            Element_Write GW (ptr_EdgeDescription edge)
              (mkMachine (assign_vertices muts (heap m1)) w)
            = Ok (snd (Write w (edgeStr e)))
                 (mkMachine (assign_vertices muts (heap m1))
                    (fst (Write w (edgeStr e))))) /\
  (forall (graph v1 v2 : addr) (directed : bool) (style : string)
          (m : Machine W) (g : Graph) (from to : VertexDescription),
      heap m !! graph = Some (OGraph g) ->
      heap m !! v1 = Some (OVertexDescription from) ->
      heap m !! v2 = Some (OVertexDescription to) ->
      exists m1 : Machine W,
        Graph_AddEdge graph v1 v2 directed style m = Ok tt m1) /\
  (forall (graph v : addr) (m : Machine W) (g : Graph),
      heap m !! graph = Some (OGraph g) ->
      exists m1 : Machine W,
        Graph_AddVertex graph v m = Ok tt m1 /\
        heap m1 !! graph
        = Some (OGraph {| Name := Name g;
                          Body := Body g ++ [ptr_VertexDescription v];
                          IsSubGraph := IsSubGraph g; Rank := Rank g |}) /\
        forall (d d' : VertexDescription),
          heap m !! v = Some (OVertexDescription d) ->
          let h2 := assign_vertices [(v, d')] (heap m1) in
          h2 !! graph = heap m1 !! graph /\
          forall (GW : addr -> M W (option error)) (w : W),
            Element_Write GW (ptr_VertexDescription v) (mkMachine h2 w)
            = Ok (snd (Write w (nodeStr d')))
                 (mkMachine h2 (fst (Write w (nodeStr d'))))) /\
  (forall (graph v : addr) (m m1 : Machine W),
      Graph_AddVertex graph v m = Ok tt m1 ->
      exists g : Graph, heap m !! graph = Some (OGraph g)).
Proof.
  split; [|split; [|split]].
  - intros graph v1 v2 directed style m m1 Hrun.
    unfold Graph_AddEdge in Hrun.
    apply bind_Ok_inv in Hrun as (from & ma & Hl1 & Hrun).
    apply load_VertexDescription_Ok_inv in Hl1 as [-> Hv1].
    apply bind_Ok_inv in Hrun as (to & mb & Hl2 & Hrun).
    apply load_VertexDescription_Ok_inv in Hl2 as [-> Hv2].
    apply bind_Ok_inv in Hrun as (edge & mc & Hal & Hrun).
    unfold alloc in Hal. injection Hal as <- <-.
    apply append_Body_Ok_inv in Hrun as (g & Hg & ->). simpl in *.
    pose proof (lookup_lt_Some _ _ _ Hv1) as Hlt1.
    pose proof (lookup_lt_Some _ _ _ Hv2) as Hlt2.
    assert (Hltg : (graph < length (heap m))%nat).
    { destruct (decide (graph < length (heap m))%nat) as [Hlt|Hge];
        [exact Hlt|].
      rewrite lookup_app_r in Hg by lia.
      destruct (graph - length (heap m))%nat as [|k]; simpl in Hg;
        [discriminate|].
      now destruct k. }
    exists from, to, g, (length (heap m)). simpl.
    split; [exact Hv1|]. split; [exact Hv2|].
    split; [now rewrite lookup_app_l in Hg by assumption|].
    split.
    { apply list_lookup_insert_eq. rewrite length_app. simpl. lia. }
    intros muts Hmuts.
    assert (Hedge :
      assign_vertices muts
        (<[graph := OGraph {| Name := Name g;
                              Body := Body g ++ [ptr_EdgeDescription (length (heap m))];
                              IsSubGraph := IsSubGraph g; Rank := Rank g |}]>
           (heap m ++ [OEdgeDescription
                         {| From := from; To := to; Directed := directed;
                            EdgeStyle := style |}]))
      !! length (heap m)
      = Some (OEdgeDescription
                {| From := from; To := to; Directed := directed;
                   EdgeStyle := style |})).
    { rewrite assign_vertices_other.
      - rewrite list_lookup_insert_ne by lia.
        now apply list_lookup_middle.
      - eapply Forall_impl; [exact Hmuts|]. simpl. intros pd [-> | ->]; lia. }
    split; [exact Hedge|].
    intros GW w. simpl.
    rewrite (bind_Ok _ _ _ _ _ (load_EdgeDescription_Ok _ _ (mkMachine _ w) Hedge)).
    now rewrite on_stream_Ok.
  - intros graph v1 v2 directed style m g from to Hg Hv1 Hv2.
    set (e := {| From := from; To := to; Directed := directed;
                 EdgeStyle := style |}).
    exists (mkMachine
              (<[graph := OGraph (with_line g (ptr_EdgeDescription
                                                  (length (heap m))))]>
                 (heap m ++ [OEdgeDescription e]))
              (stream m)).
    unfold Graph_AddEdge.
    rewrite (bind_Ok _ _ _ _ _ (load_VertexDescription_Ok v1 from m Hv1)).
    rewrite (bind_Ok _ _ _ _ _ (load_VertexDescription_Ok v2 to m Hv2)).
    rewrite (bind_Ok (alloc (OEdgeDescription e)) _ m (length (heap m))
               (mkMachine (heap m ++ [OEdgeDescription e]) (stream m))
               eq_refl).
    rewrite (append_Body_Ok _ _ g); [reflexivity|].
    simpl. now apply lookup_app_l_Some.
  - intros graph v m g Hg.
    exists (mkMachine
              (<[graph := OGraph (with_line g (ptr_VertexDescription v))]>
                 (heap m))
              (stream m)).
    split.
    { unfold Graph_AddVertex. now apply append_Body_Ok. }
    simpl.
    pose proof (lookup_lt_Some _ _ _ Hg) as Hltg.
    split; [now apply list_lookup_insert_eq|].
    intros d d' Hv.
    pose proof (lookup_lt_Some _ _ _ Hv) as Hltv.
    assert (Hne : v <> graph) by (intros ->; congruence).
    split; [now apply list_lookup_insert_ne|].
    intros GW w.
    assert (Hv' :
      <[v := OVertexDescription d']>
        (<[graph := OGraph {| Name := Name g;
                              Body := Body g ++ [ptr_VertexDescription v];
                              IsSubGraph := IsSubGraph g; Rank := Rank g |}]>
           (heap m)) !! v
      = Some (OVertexDescription d')).
    { apply list_lookup_insert_eq. now rewrite length_insert. }
    rewrite (bind_Ok _ _ _ _ _
               (load_VertexDescription_Ok _ _ (mkMachine _ w) Hv')).
    now rewrite on_stream_Ok.
  - intros graph v m m1 Hrun.
    apply append_Body_Ok_inv in Hrun as (g & Hg & _). now exists g.
Qed.

(** The vertex [a] is renamed to [z] after the edge from [a] to [b] is
    added: the edge still goes from [a] to [b].  The vertex [a] is renamed
    to [z] after it is added to the body: its line is the line of [z]. *)
Lemma Graph_AddEdge_copies_AddVertex_shares_witness :
  (exists edge : addr,
      assign_vertices [(1%nat, NewVertexDescription "z")] with_edge_heap !! edge
      = Some (OEdgeDescription edge_a_b) /\
      Element_Write (Graph_Write 0) (ptr_EdgeDescription edge)
        (mkMachine
           (assign_vertices [(1%nat, NewVertexDescription "z")] with_edge_heap)
           ("" : Buffer))
      = Ok None
           (mkMachine
              (assign_vertices [(1%nat, NewVertexDescription "z")] with_edge_heap)
              "a -> b")) /\
  (exists m1 : Machine Buffer,
      Graph_AddVertex 0%nat 1%nat (mkMachine two_vertices_heap ("" : Buffer))
      = Ok tt m1 /\
      heap m1 !! 0%nat
      = Some (OGraph {| Name := "G"; Body := [ptr_VertexDescription 1%nat];
                        IsSubGraph := false; Rank := "" |}) /\
      Element_Write (Graph_Write 0) (ptr_VertexDescription 1%nat)
        (mkMachine
           (assign_vertices [(1%nat, NewVertexDescription "z")] (heap m1))
           ("" : Buffer))
      = Ok None
           (mkMachine
              (assign_vertices [(1%nat, NewVertexDescription "z")] (heap m1))
              "z []")).
Proof.
  split.
  - destruct (proj1 (Graph_AddEdge_copies_AddVertex_shares Buffer _)
                0%nat 1%nat 2%nat true ""
                (mkMachine two_vertices_heap ("" : Buffer))
                (mkMachine with_edge_heap ("" : Buffer)) eq_refl)
      as (from & to & g & edge & Hv1 & Hv2 & _ & _ & Hmuts).
    injection Hv1 as <-. injection Hv2 as <-.
    destruct (Hmuts [(1%nat, NewVertexDescription "z")]) as [Hedge Hwrite].
    { repeat constructor. }
    exists edge. split; [exact Hedge|].
    exact (Hwrite (Graph_Write 0) ("" : Buffer)).
  - destruct (proj1 (proj2 (proj2 (Graph_AddEdge_copies_AddVertex_shares Buffer _)))
                0%nat 1%nat (mkMachine two_vertices_heap ("" : Buffer))
                (NewGraph "G") eq_refl)
      as (m1 & Hrun & Hbody & Hmut).
    exists m1. split; [exact Hrun|]. split; [exact Hbody|].
    destruct (Hmut (NewVertexDescription "a") (NewVertexDescription "z") eq_refl)
      as [_ Hwrite].
    exact (Hwrite (Graph_Write 0) ("" : Buffer)).
Defined.

(** The same scene from end to end: the vertex [a] is added to the body,
    then the edge from [a] to [b]; [a] is renamed to [z]; the graph is
    written.  The vertex line has the new name, the edge line the old one. *)
Example rename_after_AddVertex_and_AddEdge :
  (_ <- Graph_AddVertex 0%nat 1%nat ;;
   _ <- Graph_AddEdge 0%nat 1%nat 2%nat true "dashed" ;;
   _ <- store 1%nat (OVertexDescription (NewVertexDescription "z")) ;;
   Graph_Write 1 0%nat) (mkMachine two_vertices_heap ("" : Buffer))
  = Ok None
      (mkMachine
         [ OGraph {| Name := "G";
                     Body := [ptr_VertexDescription 1%nat;
                              ptr_EdgeDescription 3%nat];
                     IsSubGraph := false; Rank := "" |};
           OVertexDescription (NewVertexDescription "z");
           OVertexDescription (NewVertexDescription "b");
           OEdgeDescription
             {| From := NewVertexDescription "a"; To := NewVertexDescription "b";
                Directed := true; EdgeStyle := "dashed" |} ]
         ("digraph G {" +:+ LF +:+
          "z []" +:+ LF +:+
          "a -> b [ style=" +:+ DQ +:+ "dashed" +:+ DQ +:+ " ]" +:+ LF +:+
          "}")).
Proof. reflexivity. Qed.


(** * More on the package *)

(** ** Calls that do not return a value *)

Section Stops.
Context {W : Type} `{Writer W}.


Lemma bind_OutOfFuel {A B} (c : M W A) (k : A -> M W B) m :
  c m = OutOfFuel -> bind c k m = OutOfFuel.
Proof. intros Hc. unfold bind. now rewrite Hc. Qed.

End Stops.

(** ** The text of a graph and [Graph.Write] *)

Lemma renders_prelude (h : list Obj) (g : Graph) :
  renders (prelude g) h None
    (header_line g +:+ (if nonempty (Rank g) then rank_line g else "")).
Proof.
  unfold prelude.
  eapply renders_bind; [apply renders_WriteString|]. simpl.
  destruct (nonempty (Rank g)); [apply renders_WriteString|apply renders_ret].
Qed.

Lemma body_text_renders (h : list Obj) (et : Element -> option string)
    (lw : Element -> M Buffer (option error)) :
  (forall line t, et line = Some t -> renders (lw line) h None t) ->
  forall body b, body_text et body = Some b ->
                 renders (range_Body lw body) h None b.
Proof.
  intros Hlw body. induction body as [|line rest IH]; intros b Hb.
  - injection Hb as <-. apply renders_range_Body_nil.
  - simpl in Hb.
    destruct (et line) as [t|] eqn:Ht; [|discriminate].
    destruct (body_text et rest) as [b'|]; [|discriminate].
    injection Hb as <-.
    apply renders_range_Body_cons; [now apply Hlw|now apply IH].
Qed.

Lemma elem_text_renders (h : list Obj) (GT : addr -> option string)
    (GW : addr -> M Buffer (option error)) :
  (forall p t, GT p = Some t -> renders (GW p) h None t) ->
  forall line t, elem_text GT h line = Some t ->
                 renders (Element_Write GW line) h None t.
Proof.
  intros HGW [p|p|p|p] t Ht; simpl in Ht; [| | |now apply HGW];
    destruct (h !! p) as [[lit|v|e|g]|] eqn:Hp; try discriminate;
    injection Ht as <-.
  - now apply renders_Literal.
  - now apply renders_VertexDescription.
  - now apply renders_EdgeDescription.
Qed.

Lemma graph_text_renders (fuel : nat) (h : list Obj) :
  forall p t, graph_text fuel h p = Some t ->
              renders (Graph_Write fuel p) h None t.
Proof.
  induction fuel as [|fuel IH]; intros p t Ht; [discriminate|].
  simpl in Ht.
  destruct (h !! p) as [[lit|v|e|g]|] eqn:Hp; try discriminate.
  destruct (body_text _ (Body g)) as [b|] eqn:Hb; [|discriminate].
  injection Ht as <-.
  apply renders_Graph_Write; [exact Hp|].
  eapply body_text_renders; [|exact Hb].
  now apply elem_text_renders.
Qed.

Lemma Element_Write_text (h : list Obj) (GT : addr -> option string)
    (GW : addr -> M Buffer (option error)) :
  (forall p buf r m', GW p (mkMachine h buf) = Ok r m' -> exists t, GT p = Some t) ->
  forall line buf r m',
    Element_Write GW line (mkMachine h buf) = Ok r m' ->
    exists t, elem_text GT h line = Some t.
Proof.
  intros HGW [p|p|p|p] buf r m' Hrun; simpl in *; [| | |now apply (HGW p buf r m')];
    apply bind_Ok_inv in Hrun as (x & m1 & Hl & _).
  - apply load_Literal_Ok_inv in Hl as [_ Hp]. simpl in Hp.
    rewrite Hp. now eexists.
  - apply load_VertexDescription_Ok_inv in Hl as [_ Hp]. simpl in Hp.
    rewrite Hp. now eexists.
  - apply load_EdgeDescription_Ok_inv in Hl as [_ Hp]. simpl in Hp.
    rewrite Hp. now eexists.
Qed.

Lemma range_Body_text (h : list Obj) (et : Element -> option string)
    (lw : Element -> M Buffer (option error)) :
  (forall line t, et line = Some t -> renders (lw line) h None t) ->
  (forall line buf r m',
      lw line (mkMachine h buf) = Ok r m' -> exists t, et line = Some t) ->
  forall body buf r m',
    range_Body lw body (mkMachine h buf) = Ok r m' ->
    exists b, body_text et body = Some b.
Proof.
  intros Hfwd Hinv body. induction body as [|line rest IH]; intros buf r m' Hrun.
  - now exists "".
  - simpl in Hrun.
    apply bind_Ok_inv in Hrun as (err & m1 & Hline & Hrun).
    destruct (Hinv _ _ _ _ Hline) as [t Ht].
    rewrite (Hfwd _ _ Ht buf) in Hline. injection Hline as He Hm.
    subst err m1.
    apply bind_Ok_inv in Hrun as (err2 & m2 & Hlf & Hrun).
    assert (Hlf' : Ok err2 m2
                   = Ok (None : option error)
                        (mkMachine h ((buf +:+ t) +:+ LF) : Machine Buffer)).
    { rewrite <- Hlf. exact (renders_WriteString h LF (buf +:+ t)). }
    injection Hlf' as He Hm. subst err2 m2. simpl in Hrun.
    destruct (IH _ _ _ Hrun) as [b Hb].
    exists (t +:+ LF +:+ b). simpl. now rewrite Ht, Hb.
Qed.

Lemma Graph_Write_text (fuel : nat) (h : list Obj) :
  forall p (buf : Buffer) r m',
    Graph_Write fuel p (mkMachine h buf) = Ok r m' ->
    exists t, graph_text fuel h p = Some t.
Proof.
  induction fuel as [|fuel IH]; intros p buf r m' Hrun; [discriminate|].
  rewrite Graph_Write_S in Hrun.
  apply bind_Ok_inv in Hrun as (g & m1 & Hl & Hrun).
  apply load_Graph_Ok_inv in Hl as [-> Hp]. simpl in Hp.
  rewrite (bind_Ok _ _ _ _ _ (renders_prelude h g buf)) in Hrun. simpl in Hrun.
  unfold body_and_close in Hrun.
  apply bind_Ok_inv in Hrun as (rr & m2 & Hbody & _).
  apply (range_Body_text h (elem_text (graph_text fuel h) h)) in Hbody
    as [b Hb].
  - exists (header_line g +:+ (if nonempty (Rank g) then rank_line g else "") +:+
            b +:+ "}").
    simpl. now rewrite Hp, Hb.
  - apply elem_text_renders. apply graph_text_renders.
  - apply Element_Write_text. exact IH.
Qed.

Lemma elem_typed_text (GTy : addr -> bool) (GT : addr -> option string)
    (h : list Obj) :
  (forall p, GTy p = true <-> is_Some (GT p)) ->
  forall line, elem_typed GTy h line = true <-> is_Some (elem_text GT h line).
Proof.
  intros HG [p|p|p|p]; simpl; [| | |apply HG];
    destruct (h !! p) as [[lit|v|e|g]|];
    (split; [intros Ht; try discriminate; now eexists
            |intros [t Ht]; try discriminate; reflexivity]).
Qed.

Lemma body_typed_text (ety : Element -> bool) (et : Element -> option string) :
  (forall line, ety line = true <-> is_Some (et line)) ->
  forall body, forallb ety body = true <-> is_Some (body_text et body).
Proof.
  intros He body. induction body as [|line rest IH]; simpl.
  - split; [now eexists|reflexivity].
  - rewrite andb_true_iff, He, IH.
    destruct (et line) as [t|]; destruct (body_text et rest) as [b|];
      split; try (intros [[? ?] [? ?]]; discriminate);
      try (intros [? ?]; discriminate).
    + intros _. now eexists.
    + intros _. split; now eexists.
Qed.

Lemma typed_within_text (n : nat) (h : list Obj) :
  forall p, typed_within n h p = true <-> is_Some (graph_text n h p).
Proof.
  induction n as [|n IH]; intros p; simpl.
  - split; [discriminate|intros [t Ht]; discriminate].
  - destruct (h !! p) as [[lit|v|e|g]|];
      try (split; [discriminate|intros [t Ht]; discriminate]).
    rewrite (body_typed_text _ (elem_text (graph_text n h) h))
      by (apply elem_typed_text; exact IH).
    destruct (body_text _ (Body g)) as [b|];
      split; intros [t Ht]; try discriminate; now eexists.
Qed.

Lemma typed_within_Write (n : nat) (h : list Obj) (p : addr) (buf : Buffer) :
  typed_within n h p = true ->
  exists t : string,
    graph_text n h p = Some t /\
    forall n' : nat,
      (n <= n')%nat ->
      Graph_Write n' p (mkMachine h buf) = Ok None (mkMachine h (buf +:+ t)).
Proof.
  intros Hty. apply typed_within_text in Hty as [t Ht].
  exists t. split; [exact Ht|].
  intros n' Hle. apply (Graph_Write_fuel_le n n' p Hle).
  now apply graph_text_renders.
Qed.

Lemma Write_typed_within (n : nat) (h : list Obj) (p : addr) (buf : Buffer)
    (r : option error) (m' : Machine Buffer) :
  Graph_Write n p (mkMachine h buf) = Ok r m' ->
  typed_within n h p = true /\
  r = None /\
  exists t : string, graph_text n h p = Some t /\ m' = mkMachine h (buf +:+ t).
Proof.
  intros Hrun.
  destruct (Graph_Write_text _ _ _ _ _ _ Hrun) as [t Ht].
  split; [apply typed_within_text; now exists t|].
  rewrite (graph_text_renders _ _ _ _ Ht buf) in Hrun.
  injection Hrun as He Hm. subst r m'. split; [reflexivity|]. now exists t.
Qed.

(** X1: on a writer that takes every request, [Graph.Write] returns exactly
    when every pointer that can be reached from the graph leads to an
    object of its type and the graphs are nested finitely deep, none
    holding itself.  With graphs nested less than [fuel] deep it returns no
    error, whatever deeper recursion is allowed, and has written the header
    line, the rank line if the rank is not empty, every element of the body
    in the order of the body with a line feed after each, nested graphs
    written the same way, and the closing brace; and a call that returns
    within the depth [fuel] has found such a graph and written this text. *)
Theorem Graph_Write_Buffer_text (fuel : nat) (h : list Obj) (p : addr)
    (buf : Buffer) :
  (typed_within fuel h p = true ->
   exists t : string,
     graph_text fuel h p = Some t /\
     forall fuel' : nat,
       (fuel <= fuel')%nat ->
       Graph_Write fuel' p (mkMachine h buf)
       = Ok None (mkMachine h (buf +:+ t))) /\
  (forall (r : option error) (m' : Machine Buffer),
      Graph_Write fuel p (mkMachine h buf) = Ok r m' ->
      typed_within fuel h p = true /\
      r = None /\
      exists t : string,
        graph_text fuel h p = Some t /\ m' = mkMachine h (buf +:+ t)) /\
  ((exists n : nat, typed_within n h p = true) <->
   (exists (n : nat) (r : option error) (m' : Machine Buffer),
       Graph_Write n p (mkMachine h buf) = Ok r m')).
Proof.
  split; [|split; [|split]].
  - apply typed_within_Write.
  - apply Write_typed_within.
  - intros [n Hty].
    destruct (typed_within_Write n h p buf Hty) as (t & _ & Hrun).
    exists n, None, (mkMachine h (buf +:+ t)). now apply Hrun.
  - intros (n & r & m' & Hrun). exists n.
    now apply (Write_typed_within n h p buf r m').
Qed.

Lemma Graph_Write_Buffer_text_witness :
  exists t : string,
    graph_text 2 nested_heap 0%nat = Some t /\
    forall fuel' : nat,
      (2 <= fuel')%nat ->
      Graph_Write fuel' 0%nat (mkMachine nested_heap ("" : Buffer))
      = Ok None (mkMachine nested_heap ("" +:+ t)).
Proof.
  exact (proj1 (Graph_Write_Buffer_text 2 nested_heap 0%nat ("" : Buffer))
           eq_refl).
Defined.

(** ** The ways [Graph.Write] returns *)

(** X2: when the write of the header line fails, [Graph.Write] returns the
    error of this write and hands nothing more to the writer: no rank line,
    no element of the body, no closing brace. *)
Theorem Graph_Write_header_error (W : Type) (HW : Writer W) (fuel : nat)
    (graph : addr) (g : Graph) (m : Machine W) (w1 : W) (err : error) :
  heap m !! graph = Some (OGraph g) ->
  io_WriteString (stream m) (header_line g) = (w1, Some err) ->
  Graph_Write (S fuel) graph m = Ok (Some err) (mkMachine (heap m) w1).
Proof.
  intros Hg Hw. rewrite Graph_Write_S.
  rewrite (bind_Ok _ _ _ _ _ (load_Graph_Ok _ _ _ Hg)).
  unfold prelude, bind. rewrite on_stream_Ok, Hw. reflexivity.
Qed.

Lemma Graph_Write_header_error_witness :
  Graph_Write 1 0%nat
    (mkMachine one_line_heap (mkScripted "" [Fail 4 err_element]))
  = Ok (Some err_element) (mkMachine one_line_heap (mkScripted "digr" [])).
Proof.
  exact (Graph_Write_header_error Scripted _ 0 0%nat _
           (mkMachine one_line_heap (mkScripted "" [Fail 4 err_element]))
           (mkScripted "digr" []) err_element eq_refl eq_refl).
Defined.

(** X3: when the header line is written and the graph has a rank, and the
    write of the rank line fails, [Graph.Write] returns the error of this
    write and hands nothing more to the writer. *)
Theorem Graph_Write_rank_error (W : Type) (HW : Writer W) (fuel : nat)
    (graph : addr) (g : Graph) (m : Machine W) (w1 w2 : W) (err : error) :
  heap m !! graph = Some (OGraph g) ->
  io_WriteString (stream m) (header_line g) = (w1, None) ->
  Rank g <> "" ->
  io_WriteString w1 (rank_line g) = (w2, Some err) ->
  Graph_Write (S fuel) graph m = Ok (Some err) (mkMachine (heap m) w2).
Proof.
  intros Hg Hw1 Hrank Hw2. rewrite Graph_Write_S.
  rewrite (bind_Ok _ _ _ _ _ (load_Graph_Ok _ _ _ Hg)).
  unfold prelude, bind. rewrite on_stream_Ok, Hw1. simpl.
  rewrite (nonempty_true _ Hrank), on_stream_Ok. simpl.
  rewrite Hw2. reflexivity.
Qed.

Lemma Graph_Write_rank_error_witness :
  Graph_Write 2 0%nat
    (mkMachine nested_heap (mkScripted "" [Accept; Fail 2 err_element]))
  = Ok (Some err_element)
       (mkMachine nested_heap (mkScripted ("digraph G {" +:+ LF +:+ "ra") [])).
Proof.
  refine (Graph_Write_rank_error Scripted _ 1 0%nat _
            (mkMachine nested_heap (mkScripted "" [Accept; Fail 2 err_element]))
            (mkScripted ("digraph G {" +:+ LF) [Fail 2 err_element])
            (mkScripted ("digraph G {" +:+ LF +:+ "ra") [])
            err_element eq_refl eq_refl _ eq_refl).
  discriminate.
Defined.

(** X4: when the header, the rank line and every element of the body with
    its line feed are written with no error, [Graph.Write] writes the
    closing brace and returns what this last write returns, its error if it
    fails and no error if it does not. *)
Theorem Graph_Write_closing_brace (W : Type) (HW : Writer W) (fuel : nat)
    (graph : addr) (g : Graph) (m m0 m1 : Machine W) :
  heap m !! graph = Some (OGraph g) ->
  prelude g m = Ok None m0 ->
  range_Body (Element_Write (Graph_Write fuel)) (Body g) m0 = Ok None m1 ->
  Graph_Write (S fuel) graph m
  = Ok (snd (io_WriteString (stream m1) "}"))
       (mkMachine (heap m1) (fst (io_WriteString (stream m1) "}"))).
Proof.
  intros Hg Hpre Hbody. rewrite Graph_Write_S.
  rewrite (bind_Ok _ _ _ _ _ (load_Graph_Ok _ _ _ Hg)).
  rewrite (bind_Ok _ _ _ _ _ Hpre). simpl.
  unfold body_and_close. rewrite (bind_Ok _ _ _ _ _ Hbody).
  now rewrite on_stream_Ok.
Qed.

Lemma Graph_Write_closing_brace_witness :
  Graph_Write 1 0%nat
    (mkMachine one_line_heap
       (mkScripted "" [Accept; Accept; Accept; Fail 0 err_element]))
  = Ok (Some err_element)
       (mkMachine one_line_heap
          (mkScripted ("digraph G {" +:+ LF +:+ "partial" +:+ LF) [])).
Proof.
  exact (Graph_Write_closing_brace Scripted _ 0 0%nat _
           (mkMachine one_line_heap
              (mkScripted "" [Accept; Accept; Accept; Fail 0 err_element]))
           (mkMachine one_line_heap
              (mkScripted ("digraph G {" +:+ LF)
                 [Accept; Accept; Fail 0 err_element]))
           (mkMachine one_line_heap
              (mkScripted ("digraph G {" +:+ LF +:+ "partial" +:+ LF)
                 [Fail 0 err_element]))
           eq_refl eq_refl eq_refl).
Defined.

(** X5: when an element of the body is written with no error and the write
    of the line feed after it fails, [Graph.Write] stops there and returns
    no error: the rest of the body and the closing brace are not written,
    and the error of the line feed is lost to the caller. *)
Theorem Graph_Write_line_feed_error_lost (W : Type) (HW : Writer W)
    (fuel : nat) (graph : addr) (g : Graph)
    (pre post : list Element) (line : Element)
    (m m0 m1 m2 : Machine W) (w2 : W) (err2 : error) :
  heap m !! graph = Some (OGraph g) ->
  Body g = pre ++ line :: post ->
  prelude g m = Ok None m0 ->
  range_Body (Element_Write (Graph_Write fuel)) pre m0 = Ok None m1 ->
  Element_Write (Graph_Write fuel) line m1 = Ok None m2 ->
  io_WriteString (stream m2) LF = (w2, Some err2) ->
  Graph_Write (S fuel) graph m = Ok None (mkMachine (heap m2) w2).
Proof.
  intros Hg Hbody Hpre Hloop Hline Hlf.
  unfold io_WriteString in Hlf.
  rewrite (Graph_Write_line_feed_error_dropped fuel graph g pre post line
             m m0 m1 m2 err2) by (assumption || now rewrite Hlf).
  now rewrite Hlf.
Qed.

Lemma Graph_Write_line_feed_error_lost_witness :
  Graph_Write 1 0%nat
    (mkMachine one_line_heap
       (mkScripted "" [Accept; Accept; Fail 0 err_line_feed]))
  = Ok None
       (mkMachine one_line_heap
          (mkScripted ("digraph G {" +:+ LF +:+ "partial") [])).
Proof.
  exact (Graph_Write_line_feed_error_lost Scripted _ 0 0%nat _
           [] [] (ptr_Literal 1%nat)
           (mkMachine one_line_heap
              (mkScripted "" [Accept; Accept; Fail 0 err_line_feed]))
           (mkMachine one_line_heap
              (mkScripted ("digraph G {" +:+ LF) [Accept; Fail 0 err_line_feed]))
           (mkMachine one_line_heap
              (mkScripted ("digraph G {" +:+ LF) [Accept; Fail 0 err_line_feed]))
           (mkMachine one_line_heap
              (mkScripted ("digraph G {" +:+ LF +:+ "partial")
                 [Fail 0 err_line_feed]))
           (mkScripted ("digraph G {" +:+ LF +:+ "partial") [])
           err_line_feed eq_refl eq_refl eq_refl eq_refl eq_refl eq_refl).
Defined.

(** ** Adding to a graph, then writing it *)

Lemma body_text_mono (et et' : Element -> option string) :
  (forall line t, et line = Some t -> et' line = Some t) ->
  forall body b, body_text et body = Some b -> body_text et' body = Some b.
Proof.
  intros Het body. induction body as [|line rest IH]; intros b Hb;
    [exact Hb|].
  simpl in *.
  destruct (et line) as [t|] eqn:Ht; [|discriminate].
  destruct (body_text et rest) as [b'|]; [|discriminate].
  now rewrite (Het _ _ Ht), (IH _ eq_refl).
Qed.

Lemma body_text_snoc (et : Element -> option string) (line : Element)
    (t : string) :
  et line = Some t ->
  forall body b, body_text et body = Some b ->
                 body_text et (body ++ [line]) = Some (b +:+ t +:+ LF).
Proof.
  intros Ht body. induction body as [|l rest IH]; intros b Hb.
  - injection Hb as <-. simpl. rewrite Ht.
    now rewrite string_app_nil_r.
  - simpl in *.
    destruct (et l) as [t0|]; [|discriminate].
    destruct (body_text et rest) as [b'|]; [|discriminate].
    injection Hb as <-. rewrite (IH _ eq_refl).
    now rewrite !string_app_assoc.
Qed.

(** The literals, vertices and edges of [h] are in [h'], each at its
    address: the lines of a body are then the same in both. *)
Lemma leaf_lines_preserved (h h' : list Obj) :
  (forall (p : addr) o, h !! p = Some o -> (forall g, o <> OGraph g) -> h' !! p = Some o) ->
  forall body b, leaf_lines h body = Some b -> leaf_lines h' body = Some b.
Proof.
  intros Hpres. apply body_text_mono.
  intros [p|p|p|p] t Ht; unfold elem_text in *; [| | |discriminate];
    destruct (h !! p) as [[lit|v|e|g]|] eqn:Hp; try discriminate;
    now rewrite (Hpres _ _ Hp) by discriminate.
Qed.

Lemma leaf_lines_body_text (GT : addr -> option string) (h : list Obj) :
  forall body b, leaf_lines h body = Some b ->
                 body_text (elem_text GT h) body = Some b.
Proof.
  apply body_text_mono.
  intros [p|p|p|p] t Ht; unfold elem_text in *; [exact Ht..|discriminate].
Qed.










(** ** Graphs that cannot be written *)

Lemma leaf_lines_renders (h : list Obj) (GW : addr -> M Buffer (option error)) :
  forall body b, leaf_lines h body = Some b ->
                 renders (range_Body (Element_Write GW) body) h None b.
Proof.
  apply body_text_renders. apply elem_text_renders. discriminate.
Qed.


(** The same with an element the call on which uses up the budget. *)
Lemma Graph_Write_OutOfFuel (fuel : nat) (h : list Obj) (graph : addr)
    (g : Graph) (pre post : list Element) (line : Element) (b : string)
    (buf : Buffer) :
  h !! graph = Some (OGraph g) ->
  Body g = pre ++ line :: post ->
  leaf_lines h pre = Some b ->
  (forall buf' : Buffer,
      Element_Write (Graph_Write fuel) line (mkMachine h buf') = OutOfFuel) ->
  Graph_Write (S fuel) graph (mkMachine h buf) = OutOfFuel.
Proof.
  intros Hg Hbody Hpre Hline. rewrite Graph_Write_S.
  rewrite (bind_Ok _ _ _ _ _ (load_Graph_Ok graph g (mkMachine h buf) Hg)).
  rewrite (bind_Ok _ _ _ _ _ (renders_prelude h g buf)). simpl.
  unfold body_and_close. apply bind_OutOfFuel. rewrite Hbody.
  rewrite (range_Body_app _ _ _ _ _ (leaf_lines_renders h _ _ _ Hpre _)).
  simpl. apply bind_OutOfFuel. apply Hline.
Qed.

Lemma Graph_Write_cycle (h : list Obj) (graph : addr) (g : Graph)
    (pre post : list Element) (b : string) :
  h !! graph = Some (OGraph g) ->
  Body g = pre ++ ptr_Graph graph :: post ->
  leaf_lines h pre = Some b ->
  forall (fuel : nat) (buf : Buffer),
    Graph_Write fuel graph (mkMachine h buf) = OutOfFuel.
Proof.
  intros Hg Hbody Hpre fuel.
  induction fuel as [|fuel IH]; intros buf; [reflexivity|].
  apply (Graph_Write_OutOfFuel fuel h graph g pre post (ptr_Graph graph) b);
    [exact Hg|exact Hbody|exact Hpre|].
  intros buf'. exact (IH buf').
Qed.

(** X11: [AddSubGraph] takes the graph itself as the graph to add.  After
    this call on a graph whose body holds literals, vertices and edges, a
    call of [Graph.Write] on a writer that takes every request never
    returns, however deep the recursion may go: the graph is in its own
    body, and the call on it comes to the graph again. *)
Theorem Graph_AddSubGraph_self_never_returns (graph : addr) (h : list Obj)
    (g : Graph) (b : string) (fuel : nat) (buf : Buffer) :
  h !! graph = Some (OGraph g) ->
  leaf_lines h (Body g) = Some b ->
  (_ <- Graph_AddSubGraph graph graph ;; Graph_Write fuel graph)
    (mkMachine h buf)
  = OutOfFuel.
Proof.
  intros Hg Hb.
  assert (Hop : Graph_AddSubGraph graph graph (mkMachine h buf)
                = Ok tt (mkMachine
                           (<[graph := OGraph (with_line g (ptr_Graph graph))]> h)
                           buf)).
  { unfold Graph_AddSubGraph. now rewrite (append_Body_Ok _ _ g). }
  rewrite (bind_Ok _ _ _ _ _ Hop).
  apply (Graph_Write_cycle _ graph (with_line g (ptr_Graph graph))
           (Body g) [] b).
  - apply list_lookup_insert_eq. now apply lookup_lt_Some in Hg.
  - reflexivity.
  - apply (leaf_lines_preserved h); [|exact Hb].
    intros p o Hp Ho. rewrite list_lookup_insert_ne; [exact Hp|].
    intros <-. unfold addr in *. rewrite Hg in Hp. injection Hp as <-.
    now apply (Ho g).
Qed.

Lemma Graph_AddSubGraph_self_never_returns_witness :
  (_ <- Graph_AddSubGraph 0%nat 0%nat ;; Graph_Write 7 0%nat)
    (mkMachine [OGraph (NewGraph "G")] ("" : Buffer))
  = OutOfFuel.
Proof.
  exact (Graph_AddSubGraph_self_never_returns 0%nat [OGraph (NewGraph "G")]
           (NewGraph "G") "" 7 ("" : Buffer) eq_refl eq_refl).
Defined.



(** X13: [AddEdge] reads both vertices before anything else: with a pointer
    that leads to nothing for either of them it panics at once, on any
    writer, in the state it was called in: no edge is made and the body of
    the graph is as it was. *)
Theorem Graph_AddEdge_dangling (W : Type) (HW : Writer W)
    (graph v1 v2 : addr) (directed : bool) (style : string) (m : Machine W) :
  heap m !! v1 = None \/ heap m !! v2 = None ->
  Graph_AddEdge graph v1 v2 directed style m = Panic m.
Proof.
  intros Hv. unfold Graph_AddEdge, load_VertexDescription, load, bind.
  unfold addr in *.
  destruct (heap m !! v1) as [[lit|d1|e|g]|]; simpl; try reflexivity.
  destruct (heap m !! v2) as [[lit|d2|e|g]|]; simpl; try reflexivity.
  destruct Hv as [Hv|Hv]; discriminate.
Qed.

Lemma Graph_AddEdge_dangling_witness :
  Graph_AddEdge 0%nat 1%nat 9%nat true ""
    (mkMachine two_vertices_heap ("" : Buffer))
  = Panic (mkMachine two_vertices_heap "").
Proof.
  exact (Graph_AddEdge_dangling Buffer _ 0%nat 1%nat 9%nat true ""
           (mkMachine two_vertices_heap ("" : Buffer)) (or_intror eq_refl)).
Defined.

(** ** New graphs *)

(** X14: a graph as [NewGraph] makes it, whatever its name, is no subgraph
    and has no rank and no body: it is written as the line [digraph], the
    name and an opening brace, and a closing brace on the next line. *)
Theorem NewGraph_Write (name : string) (h : list Obj) (graph : addr)
    (fuel : nat) (buf : Buffer) :
  h !! graph = Some (OGraph (NewGraph name)) ->
  Graph_Write (S fuel) graph (mkMachine h buf)
  = Ok None (mkMachine h (buf +:+ "digraph " +:+ name +:+ " {" +:+ LF +:+ "}")).
Proof.
  intros Hg.
  rewrite (renders_Graph_Write fuel h graph _ "" Hg
             (renders_range_Body_nil h _) buf).
  unfold header_line. simpl. now rewrite !string_app_assoc.
Qed.

Lemma NewGraph_Write_witness :
  Graph_Write 1 0%nat (mkMachine [OGraph (NewGraph "net")] ("" : Buffer))
  = Ok None
      (mkMachine [OGraph (NewGraph "net")] ("digraph net {" +:+ LF +:+ "}")).
Proof.
  exact (NewGraph_Write "net" [OGraph (NewGraph "net")] 0%nat 0 ("" : Buffer)
           eq_refl).
Defined.


(** ** A sequence of calls, then writing *)

Lemma call_text_preserved (h h1 : list Obj) (c : call) (t : string) :
  (forall (p : addr) o, h !! p = Some o -> (forall g, o <> OGraph g) -> h1 !! p = Some o) ->
  call_text h c = Some t -> call_text h1 c = Some t.
Proof.
  intros Hpres.
  destruct c as [text| |v|v1 v2 directed style]; simpl; try (intros Ht; exact Ht).
  - destruct (h !! v) as [[lit|d|e|g]|] eqn:Hv; try discriminate.
    now rewrite (Hpres _ _ Hv) by discriminate.
  - destruct (h !! v1) as [[lit|d1|e|g]|] eqn:Hv1; try discriminate.
    destruct (h !! v2) as [[lit|d2|e|g]|] eqn:Hv2; try discriminate.
    now rewrite (Hpres _ _ Hv1), (Hpres _ _ Hv2) by discriminate.
Qed.

Lemma calls_text_preserved (h h1 : list Obj) :
  (forall (p : addr) o, h !! p = Some o -> (forall g, o <> OGraph g) -> h1 !! p = Some o) ->
  forall cs ts, calls_text h cs = Some ts -> calls_text h1 cs = Some ts.
Proof.
  intros Hpres cs. induction cs as [|c rest IH]; intros ts Hts; [exact Hts|].
  simpl in *.
  destruct (call_text h c) as [t|] eqn:Ht; [|discriminate].
  destruct (calls_text h rest) as [ts'|]; [|discriminate].
  now rewrite (call_text_preserved _ _ _ _ Hpres Ht), (IH _ eq_refl).
Qed.

(** One call: the body has one more element, whose line is the line of the
    call; the graph is otherwise as it was, and so are the literals, the
    vertices and the edges. *)
Lemma run_call_step (graph : addr) (c : call) (h : list Obj) (g : Graph)
    (b t : string) (buf : Buffer) :
  h !! graph = Some (OGraph g) ->
  leaf_lines h (Body g) = Some b ->
  call_text h c = Some t ->
  exists (h1 : list Obj) (line : Element),
    run_call graph c (mkMachine h buf) = Ok tt (mkMachine h1 buf) /\
    h1 !! graph = Some (OGraph (with_line g line)) /\
    (forall (p : addr) o,
        h !! p = Some o -> (forall g, o <> OGraph g) -> h1 !! p = Some o) /\
    leaf_lines h1 (Body g ++ [line]) = Some (b +:+ t +:+ LF).
Proof.
  intros Hg Hb Ht.
  pose proof (lookup_lt_Some _ _ _ Hg) as Hlt.
  assert (Hstep : forall (h0 : list Obj) (line : Element),
             (forall (p : addr) o,
                 h !! p = Some o -> (forall g, o <> OGraph g) -> h0 !! p = Some o) ->
             h0 !! graph = Some (OGraph g) ->
             elem_text (fun _ => None)
               (<[graph := OGraph (with_line g line)]> h0) line = Some t ->
             (<[graph := OGraph (with_line g line)]> h0) !! graph
             = Some (OGraph (with_line g line)) /\
             (forall (p : addr) o,
                 h !! p = Some o -> (forall g, o <> OGraph g) ->
                 (<[graph := OGraph (with_line g line)]> h0) !! p = Some o) /\
             leaf_lines (<[graph := OGraph (with_line g line)]> h0)
               (Body g ++ [line]) = Some (b +:+ t +:+ LF)).
  { intros h0 line Hpres Hg0 Hline.
    assert (Hpres' : forall (p : addr) o,
               h !! p = Some o -> (forall g, o <> OGraph g) ->
               (<[graph := OGraph (with_line g line)]> h0) !! p = Some o).
    { intros p o Hp Ho. rewrite list_lookup_insert_ne; [now apply Hpres|].
      intros <-. unfold addr in *. rewrite Hg in Hp. injection Hp as <-.
      now apply (Ho g). }
    split; [|split; [exact Hpres'|]].
    - apply list_lookup_insert_eq. now apply lookup_lt_Some in Hg0.
    - apply body_text_snoc; [exact Hline|].
      now apply (leaf_lines_preserved h). }
  destruct c as [text| |v|v1 v2 directed style]; simpl in Ht.
  - injection Ht as <-.
    exists (<[graph := OGraph (with_line g (ptr_Literal (length h)))]>
              (h ++ [OLiteral {| Line := "/* " +:+ text +:+ " */" |}])),
           (ptr_Literal (length h)).
    assert (Hg1 : (h ++ [OLiteral {| Line := "/* " +:+ text +:+ " */" |}]) !! graph
                  = Some (OGraph g)) by now apply lookup_app_l_Some.
    split.
    { simpl. unfold Graph_AddComment.
      rewrite (bind_Ok (alloc (OLiteral {| Line := "/* " +:+ text +:+ " */" |}))
                 _ (mkMachine h buf) (length h)
                 (mkMachine (h ++ [OLiteral {| Line := "/* " +:+ text +:+ " */" |}]) buf)
                 eq_refl).
      now rewrite (append_Body_Ok _ _ g) by exact Hg1. }
    apply Hstep; [|exact Hg1|].
    + intros p o Hp _. now apply lookup_app_l_Some.
    + simpl. rewrite list_lookup_insert_ne by lia.
      now rewrite list_lookup_middle.
  - injection Ht as <-.
    exists (<[graph := OGraph (with_line g (ptr_Literal (length h)))]>
              (h ++ [OLiteral {| Line := "" |}])),
           (ptr_Literal (length h)).
    assert (Hg1 : (h ++ [OLiteral {| Line := "" |}]) !! graph = Some (OGraph g))
      by now apply lookup_app_l_Some.
    split.
    { simpl. unfold Graph_AddNewLine.
      rewrite (bind_Ok (alloc (OLiteral {| Line := "" |})) _ (mkMachine h buf)
                 (length h)
                 (mkMachine (h ++ [OLiteral {| Line := "" |}]) buf) eq_refl).
      now rewrite (append_Body_Ok _ _ g) by exact Hg1. }
    apply Hstep; [|exact Hg1|].
    + intros p o Hp _. now apply lookup_app_l_Some.
    + simpl. rewrite list_lookup_insert_ne by lia.
      now rewrite list_lookup_middle.
  - destruct (h !! v) as [[lit|d|e|g0]|] eqn:Hv; try discriminate.
    injection Ht as <-.
    exists (<[graph := OGraph (with_line g (ptr_VertexDescription v))]> h),
           (ptr_VertexDescription v).
    split.
    { simpl. unfold Graph_AddVertex. now rewrite (append_Body_Ok _ _ g). }
    apply Hstep; [|exact Hg|].
    + intros p o Hp _. exact Hp.
    + simpl. rewrite list_lookup_insert_ne
        by (intros <-; unfold addr in *; congruence).
      unfold addr in *. now rewrite Hv.
  - destruct (h !! v1) as [[lit|d1|e|g0]|] eqn:Hv1; try discriminate.
    destruct (h !! v2) as [[lit|d2|e|g0]|] eqn:Hv2; try discriminate.
    injection Ht as <-.
    set (e := {| From := d1; To := d2; Directed := directed;
                 EdgeStyle := style |}).
    exists (<[graph := OGraph (with_line g (ptr_EdgeDescription (length h)))]>
              (h ++ [OEdgeDescription e])),
           (ptr_EdgeDescription (length h)).
    assert (Hg1 : (h ++ [OEdgeDescription e]) !! graph = Some (OGraph g))
      by now apply lookup_app_l_Some.
    split.
    { simpl. unfold Graph_AddEdge.
      rewrite (bind_Ok _ _ _ _ _
                 (load_VertexDescription_Ok v1 d1 (mkMachine h buf) Hv1)).
      rewrite (bind_Ok _ _ _ _ _
                 (load_VertexDescription_Ok v2 d2 (mkMachine h buf) Hv2)).
      rewrite (bind_Ok (alloc (OEdgeDescription e)) _ (mkMachine h buf)
                 (length h) (mkMachine (h ++ [OEdgeDescription e]) buf) eq_refl).
      now rewrite (append_Body_Ok _ _ g) by exact Hg1. }
    apply Hstep; [|exact Hg1|].
    + intros p o Hp _. now apply lookup_app_l_Some.
    + simpl. rewrite list_lookup_insert_ne by lia.
      now rewrite list_lookup_middle.
Qed.

Lemma run_calls_lines (graph : addr) (buf : Buffer) (cs : list call) :
  forall (h : list Obj) (g : Graph) (b ts : string),
    h !! graph = Some (OGraph g) ->
    leaf_lines h (Body g) = Some b ->
    calls_text h cs = Some ts ->
    exists (h' : list Obj) (g' : Graph),
      run_calls graph cs (mkMachine h buf) = Ok tt (mkMachine h' buf) /\
      h' !! graph = Some (OGraph g') /\
      Name g' = Name g /\ IsSubGraph g' = IsSubGraph g /\ Rank g' = Rank g /\
      leaf_lines h' (Body g') = Some (b +:+ ts).
Proof.
  induction cs as [|c rest IH]; intros h g b ts Hg Hb Hts.
  - injection Hts as <-. exists h, g.
    rewrite string_app_nil_r. now repeat split.
  - simpl in Hts.
    destruct (call_text h c) as [t|] eqn:Ht; [|discriminate].
    destruct (calls_text h rest) as [ts'|] eqn:Hts'; [|discriminate].
    injection Hts as <-.
    destruct (run_call_step graph c h g b t buf Hg Hb Ht)
      as (h1 & line & Hrun & Hg1 & Hpres & Hb1).
    destruct (IH h1 (with_line g line) (b +:+ t +:+ LF) ts' Hg1 Hb1
                (calls_text_preserved _ _ Hpres _ _ Hts'))
      as (h' & g' & Hrun' & Hg' & Hn & Hs & Hr & Hb').
    exists h', g'. simpl. rewrite (bind_Ok _ _ _ _ _ Hrun).
    repeat split; try assumption.
    rewrite Hb'. now rewrite !string_app_assoc.
Qed.

(** X15: the lines of a graph come in the order of the calls that added
    them.  After any sequence of calls of [AddComment], [AddNewLine],
    [AddVertex] and [AddEdge] on a graph whose body holds literals, vertices
    and edges, with vertices that exist, the graph is written with its
    header and rank line as before, its lines as before and, after them, one
    line for each call in the order of the calls; the calls change neither
    the name, nor the flag, nor the rank of the graph. *)
Theorem run_calls_then_Write (fuel : nat) (graph : addr) (cs : list call)
    (h : list Obj) (g : Graph) (b ts : string) (buf : Buffer) :
  h !! graph = Some (OGraph g) ->
  leaf_lines h (Body g) = Some b ->
  calls_text h cs = Some ts ->
  exists h' : list Obj,
    (_ <- run_calls graph cs ;; Graph_Write (S fuel) graph) (mkMachine h buf)
    = Ok None
        (mkMachine h'
           (buf +:+ header_line g +:+
            (if nonempty (Rank g) then rank_line g else "") +:+
            b +:+ ts +:+ "}")).
Proof.
  intros Hg Hb Hts.
  destruct (run_calls_lines graph buf cs h g b ts Hg Hb Hts)
    as (h' & g' & Hrun & Hg' & Hn & Hs & Hr & Hb').
  exists h'. rewrite (bind_Ok _ _ _ _ _ Hrun).
  assert (Ht : graph_text (S fuel) h' graph
               = Some (header_line g' +:+
                       (if nonempty (Rank g') then rank_line g' else "") +:+
                       (b +:+ ts) +:+ "}")).
  { simpl. rewrite Hg'.
    now rewrite (leaf_lines_body_text _ _ _ _ Hb'). }
  rewrite (graph_text_renders _ _ _ _ Ht buf).
  unfold header_line, rank_line. rewrite Hn, Hs, Hr.
  now rewrite !string_app_assoc.
Qed.

Lemma run_calls_then_Write_witness :
  exists h' : list Obj,
    (_ <- run_calls 0%nat
            [call_AddVertex 1%nat; call_AddEdge 1%nat 2%nat true "";
             call_AddVertex 2%nat] ;;
     Graph_Write 1 0%nat) (mkMachine two_vertices_heap ("" : Buffer))
    = Ok None
        (mkMachine h'
           ("digraph G {" +:+ LF +:+
            "a []" +:+ LF +:+ "a -> b" +:+ LF +:+ "b []" +:+ LF +:+ "}")).
Proof.
  exact (run_calls_then_Write 0 0%nat
           [call_AddVertex 1%nat; call_AddEdge 1%nat 2%nat true "";
            call_AddVertex 2%nat]
           two_vertices_heap (NewGraph "G") ""
           ("a []" +:+ LF +:+ "a -> b" +:+ LF +:+ "b []" +:+ LF)
           ("" : Buffer) eq_refl eq_refl eq_refl).
Defined.
